(** * collaborativepermute: the learning engine of predictor.go

    A shallow embedding of [Engine] (predictor.go) and of its methods
    [hingeLoss], [gradientLoss], [update], [Respond] and [Generate], of the
    loop of [TestConvergence] that calls them, and the properties of the
    engine proved on it.

    - Go's [float64] is Rocq's primitive binary64 [float]: [+], [-], [*], [/],
      [<], [math.Sqrt] and [math.Abs] are the IEEE-754 operations, rounded to
      nearest even, one rounding per operation.
    - Go's [int] is [Z]; slices are lists, an index out of range is a panic.
    - The methods mutate the engine through their pointer receiver: they are
      written in a state monad over [Engine]. A result also records the batch
      size of every loss evaluation, and a panic ends the run.
    - The linear algebra of github.com/fatlotus/gauss that [update] calls
      (Sum, Scale, Product, Diagonal, Transpose, SVD) and [math.Exp] are not
      part of the repository: they are parameters, functions from arrays to
      fresh arrays. The value that [rand.Float64()] returns is an argument of
      [Generate].
    - [update] replaces [p.X] by a fresh array after [p.Xp = p.X], so no two
      fields of a reachable engine share their cells: arrays are values.

    Part I is the program, Part II the vocabulary of the specification,
    Part III the proofs. *)

From Stdlib Require Import ZArith List String Bool Lia Floats Permutation.
From Stdlib Require Uint63.
Import ListNotations.
Local Open Scope Z_scope.

Set Implicit Arguments.

(** * Part I. The program *)

(** ** float64 *)

(** The literal [0.0001] of [gradientLoss], as the binary64 value the
    compiler rounds it to. *)
Definition epsilon : float := 0x1.a36e2eb1c432dp-14%float.

(** The literal [0.04] of [NewEngine]. *)
Definition lambda0 : float := 0x1.47ae147ae147bp-5%float.

(** [float64(n)] for a length [n]. *)
Definition float64_of_int (n : Z) : float := PrimFloat.of_uint63 (Uint63.of_Z n).

(** [math.Max]: +Inf wins, then NaN, then [+0] over [-0], else the larger. *)
Definition math_Max (x y : float) : float :=
  if (x =? infinity)%float || (y =? infinity)%float then infinity
  else if is_nan x || is_nan y then nan
  else if (x =? 0)%float && (x =? y)%float then (if get_sign x then y else x)
  else if (y <? x)%float then x else y.

Definition math_Abs (x : float) : float := abs x.
Definition math_Sqrt (x : float) : float := sqrt x.

(** ** Data *)

(** [gauss.Array]: the cells in one slice and the dimensions. *)
Record Array : Type := mkArray { Data : list float; Shape : list Z }.

Record Query : Type := mkQuery { User : Z; Choices : list Z; weight : float }.

(** [Engine]; the field [Z] of the source is [Z'] here. *)
Record Engine : Type := mkEngine {
  X : Array; Xp : Array; Z' : Array;
  Nu : float; Alpha : float; Lambda : float; T : float;
  History : list Query
}.

Definition set_X (a : Array) (p : Engine) : Engine :=
  mkEngine a (Xp p) (Z' p) (Nu p) (Alpha p) (Lambda p) (T p) (History p).
Definition set_Xp (a : Array) (p : Engine) : Engine :=
  mkEngine (X p) a (Z' p) (Nu p) (Alpha p) (Lambda p) (T p) (History p).
Definition set_Z' (a : Array) (p : Engine) : Engine :=
  mkEngine (X p) (Xp p) a (Nu p) (Alpha p) (Lambda p) (T p) (History p).
Definition set_Alpha (a : float) (p : Engine) : Engine :=
  mkEngine (X p) (Xp p) (Z' p) (Nu p) a (Lambda p) (T p) (History p).
Definition set_History (h : list Query) (p : Engine) : Engine :=
  mkEngine (X p) (Xp p) (Z' p) (Nu p) (Alpha p) (Lambda p) (T p) h.

(** The errors [Respond] returns ([fmt.Errorf], with the numbers it prints). *)
Inductive error : Type :=
| ErrBinary
| ErrUser (user users : Z)
| ErrChoice (choice choices : Z).

(** ** The dense-matrix library *)

(** The operations of github.com/fatlotus/gauss that [update] composes. *)
Record Gauss : Type := mkGauss {
  gauss_Sum : Array -> Array -> Array;
  gauss_Scale : Array -> float -> Array;
  gauss_Product : Array -> Array -> Array;
  gauss_Diagonal : list float -> Array;
  gauss_Transpose : Array -> Array;
  gauss_SVD : Array -> Array * Array * Array
}.

(** Modelled from the spec: [gauss.Zero] (the library is not part of the
    repository). "zeroMatrix(rows, cols): allocate a zero-filled matrix of
    given shape": one zero cell per index of the shape. *)
Definition Zero (shape : list Z) : Array :=
  mkArray (repeat 0%float (Z.to_nat (fold_right Z.mul 1 shape))) shape.

(** Modelled from the spec: [gauss.Array.I] (the library is not part of the
    repository). "elementAccess(matrix, row, col): mutable ref to float,
    bounds-checked"; "fails with IndexError if u or i is out of bounds". The
    reference is the position of the cell in [Data], rows laid out one after
    the other; [None] is the failure. *)
Definition I (a : Array) (u i : Z) : option nat :=
  match Shape a with
  | [rows; cols] =>
      if (0 <=? u) && (u <? rows) && (0 <=? i) && (i <? cols)
      then Some (Z.to_nat (u * cols + i)) else None
  | _ => None
  end.

(** [l[k] = v]; [None] when [k] is out of range. *)
Fixpoint store (l : list float) (k : nat) (v : float) : option (list float) :=
  match l, k with
  | [], _ => None
  | _ :: l', O => Some (v :: l')
  | x :: l', S k' => option_map (cons x) (store l' k' v)
  end.

(** ** The monad of the methods *)

(** A call returns a value and the engine it leaves, or panics. [divs] lists,
    in order, the batch size [len(samps)] each [hingeLoss] divided by. *)
Inductive Res (A : Type) : Type :=
| Done (a : A) (p : Engine) (divs : list Z)
| Abort (msg : string) (divs : list Z).
Arguments Abort {A} msg divs.

Definition M (A : Type) : Type := Engine -> Res A.

Definition ret {A} (a : A) : M A := fun p => Done a p [].

Definition bind {A B} (m : M A) (k : A -> M B) : M B :=
  fun p =>
    match m p with
    | Done a p' d =>
        match k a p' with
        | Done b p'' d' => Done b p'' (d ++ d')
        | Abort msg d' => Abort msg (d ++ d')
        end
    | Abort msg d => Abort msg d
    end.

Notation "x <- m ;; k" := (bind m (fun x => k))
  (at level 61, m at next level, right associativity).
Notation "' pat <- m ;; k" := (bind m (fun x => match x with pat => k end))
  (at level 61, pat pattern, m at next level, right associativity).
Notation "m ;;; k" := (bind m (fun _ => k))
  (at level 61, right associativity).

Definition panic {A} (msg : string) : M A := fun _ => Abort msg [].
Definition gets {A} (f : Engine -> A) : M A := fun p => Done (f p) p [].
Definition modify (f : Engine -> Engine) : M unit := fun p => Done tt (f p) [].
Definition divided_by (n : Z) : M unit := fun p => Done tt p [n].

(** A value that exists only when an index is in range. *)
Definition index {A} (o : option A) : M A :=
  match o with Some a => ret a | None => panic "index out of range" end.

(** [for _, x := range xs { body }], [s] the variables the body updates. *)
Fixpoint for_range {A S} (xs : list A) (body : A -> S -> M S) (s : S) : M S :=
  match xs with
  | [] => ret s
  | x :: xs' => s' <- body x s ;; for_range xs' body s'
  end.

(** The same loop when the body may [return r] from the function: [inl r]
    leaves the loop with the result, [inr s] goes on. *)
Fixpoint for_return {A S R} (xs : list A) (body : A -> S -> M (R + S)) (s : S)
  : M (R + S) :=
  match xs with
  | [] => ret (inr s)
  | x :: xs' =>
      o <- body x s ;;
      match o with
      | inl r => ret (inl r)
      | inr s' => for_return xs' body s'
      end
  end.

(** [0, 1, ..., n-1]: the values of [for i := 0; i < n; i++]. *)
Definition upto (n : Z) : list Z := map Z.of_nat (seq 0 (Z.to_nat n)).

(** [len(xs)] *)
Definition len {A} (xs : list A) : Z := Z.of_nat (List.length xs).

(** [*p.X.I(u, i)] *)
Definition X_at (u i : Z) : M float :=
  a <- gets X ;;
  k <- index (I a u i) ;;
  index (nth_error (Data a) k).

(** [p.X.Data[k] = v] *)
Definition X_Data_store (k : nat) (v : float) : M unit :=
  a <- gets X ;;
  d <- index (store (Data a) k v) ;;
  modify (set_X (mkArray d (Shape a))).

(** [p.X.Shape[k]] *)
Definition X_Shape (k : nat) : M Z :=
  a <- gets X ;; index (nth_error (Shape a) k).

(** ** The methods *)

Definition hingeLoss (samps : list Query) : M float :=
  sum <- for_range samps (fun x sum =>
           c0 <- index (nth_error (Choices x) 0) ;;
           c1 <- index (nth_error (Choices x) 1) ;;
           x0 <- X_at (User x) c0 ;;
           x1 <- X_at (User x) c1 ;;
           let diff := (x0 - x1)%float in
           ret (sum + math_Max (1 - diff) 0)%float) 0%float ;;
  divided_by (len samps) ;;;
  ret (sum / float64_of_int (len samps))%float.

Definition gradientLoss (samps : list Query) : M Array :=
  shape <- gets (fun p => Shape (X p)) ;;
  let result := Zero shape in
  before <- hingeLoss samps ;;
  data <- for_range (seq 0 (List.length (Data result))) (fun i data =>
            a <- gets X ;;
            xi <- index (nth_error (Data a) i) ;;
            X_Data_store i (xi + epsilon)%float ;;;
            after <- hingeLoss samps ;;
            data' <- index (store data i ((after - before) / epsilon)%float) ;;
            a' <- gets X ;;
            xi' <- index (nth_error (Data a') i) ;;
            X_Data_store i (xi' - epsilon)%float ;;;
            ret data') (Data result) ;;
  ret (mkArray data (Shape result)).

(** [for i := range S.Data { S.Data[i] = math.Max(0, S.Data[i] - p.Lambda) }] *)
Definition threshold (S' : Array) : M Array :=
  data <- for_range (seq 0 (List.length (Data S'))) (fun i data =>
            si <- index (nth_error data i) ;;
            lambda <- gets Lambda ;;
            index (store data i (math_Max 0 (si - lambda)%float))) (Data S') ;;
  ret (mkArray data (Shape S')).

Definition update (gauss : Gauss) (samps : list Query) : M unit :=
  alpha <- gets Alpha ;;
  let alphaP := ((1 + math_Sqrt (1 + 4 * alpha * alpha)) / 2)%float in
  z <- gets Z' ;;
  g <- gradientLoss samps ;;
  nu <- gets Nu ;;
  let '(U, S', V) :=
    gauss_SVD gauss (gauss_Sum gauss z (gauss_Scale gauss g (- nu)%float)) in
  S' <- threshold S' ;;
  x <- gets X ;;
  modify (set_Xp x) ;;;
  modify (set_X (gauss_Product gauss
                   (gauss_Product gauss U (gauss_Diagonal gauss (Data S')))
                   (gauss_Transpose gauss V))) ;;;
  x <- gets X ;;
  xp <- gets Xp ;;
  alpha <- gets Alpha ;;
  modify (set_Z' (gauss_Sum gauss x
                    (gauss_Scale gauss
                       (gauss_Sum gauss x (gauss_Scale gauss xp (-1)%float))
                       ((alpha - 1) / alphaP)%float))) ;;;
  modify (set_Alpha alphaP).

(** [Respond]: [None] is the [nil] error. *)
Definition Respond (gauss : Gauss) (prompt : Query) : M (option error) :=
  if negb (len (Choices prompt) =? 2) then ret (Some ErrBinary)
  else
    users <- X_Shape 0 ;;
    if (User prompt <? 0) || (User prompt >=? users)
    then ret (Some (ErrUser (User prompt) users))
    else
      bad <- for_return (Choices prompt) (fun choice (_ : unit) =>
               choices <- X_Shape 1 ;;
               if (choice <? 0) || (choice >=? choices)
               then ret (inl (ErrChoice choice choices))
               else ret (inr tt)) tt ;;
      match bad with
      | inl e => ret (Some e)
      | inr _ =>
          h <- gets History ;;
          modify (set_History (h ++ [prompt])) ;;;
          h' <- gets History ;;
          update gauss h' ;;;
          ret None
      end.

(** The candidates [Generate] collects, with the running [sum]: the three
    nested loops, [continue] skipping the rest of a body. *)
Definition candidates (math_Exp : float -> float) (user : Z)
  : M (list Query * float) :=
  users <- X_Shape 0 ;;
  for_range (upto users) (fun u acc =>
    if (user >=? 0) && negb (user =? u) then ret acc
    else
      choices <- X_Shape 1 ;;
      for_range (upto choices) (fun a acc =>
        choices' <- X_Shape 1 ;;
        for_range (upto choices') (fun b '(cands, sum) =>
          if a =? b then ret (cands, sum)
          else
            xa <- X_at u a ;;
            xb <- X_at u b ;;
            let diff := math_Abs (xa - xb) in
            t <- gets T ;;
            let weight := math_Exp (- diff / t)%float in
            ret (cands ++ [mkQuery u [a; b] weight], (sum + weight)%float))
          acc) acc) ([], 0%float).

(** [Generate]; [variate] is the value [rand.Float64()] returns. *)
Definition Generate (math_Exp : float -> float) (variate : float) (user : Z)
  : M Query :=
  '(cands, sum) <- candidates math_Exp user ;;
  let offset := (variate * sum)%float in
  found <- for_return cands (fun option offset =>
             if (offset <? weight option)%float then
               c0 <- index (nth_error (Choices option) 0) ;;
               c1 <- index (nth_error (Choices option) 1) ;;
               x0 <- X_at (User option) c0 ;;
               x1 <- X_at (User option) c1 ;;
               if (x0 <? x1)%float
               then ret (inl (mkQuery (User option) [c1; c0] (weight option)))
               else ret (inl option)
             else ret (inr (offset - weight option)%float)) offset ;;
  match found with
  | inl q => ret q
  | inr _ => panic "Could not find another question"
  end.

(** [NewEngine] *)
Definition NewEngine (users choices : Z) : Engine :=
  mkEngine (Zero [users; choices]) (Zero [users; choices]) (Zero [users; choices])
           1%float 1%float lambda0 1%float [].

(** ** The callers: [TestConvergence] *)

(** What [t.Fatalf] reports in [TestConvergence]: "asked to compare %d with
    itself" and "needed %v mistakes for a 10x10 matrix". *)
Inductive failure : Type :=
| ComparedWithItself (choice : Z)
| TooManyMistakes (incorrect : Z).

(** [q.Choices[0], q.Choices[1] = q.Choices[1], q.Choices[0]] *)
Definition swap_Choices (q : Query) : M Query :=
  c0 <- index (nth_error (Choices q) 0) ;;
  c1 <- index (nth_error (Choices q) 1) ;;
  ret (mkQuery (User q) (c1 :: c0 :: skipn 2 (Choices q)) (weight q)).

(** One turn of the loop of [TestConvergence], [incorrect] its counter:
    [inl] is the [t.Fatalf] that ends the test. The answer given to the
    engine is the pair in ascending order. *)
Definition TestConvergence_turn (math_Exp : float -> float) (gauss : Gauss)
  (variate : float) (incorrect : Z) : M (failure + Z) :=
  q <- Generate math_Exp variate (-1) ;;
  c0 <- index (nth_error (Choices q) 0) ;;
  c1 <- index (nth_error (Choices q) 1) ;;
  if c0 =? c1 then ret (inl (ComparedWithItself c0))
  else
    c0 <- index (nth_error (Choices q) 0) ;;
    c1 <- index (nth_error (Choices q) 1) ;;
    '(q, incorrect) <- (if c0 >=? c1
                        then q' <- swap_Choices q ;; ret (q', incorrect + 1)
                        else ret (q, incorrect)) ;;
    Respond gauss q ;;;
    ret (inr incorrect).

(** [TestConvergence] from the engine it allocates on, one variate for each
    turn of its loop: [Some] is the failure it reports, [None] a pass. *)
Definition TestConvergence (math_Exp : float -> float) (gauss : Gauss)
  (variates : list float) : M (option failure) :=
  r <- for_return variates (TestConvergence_turn math_Exp gauss) 0 ;;
  match r with
  | inl f => ret (Some f)
  | inr incorrect =>
      if incorrect >? 40 then ret (Some (TooManyMistakes incorrect))
      else ret None
  end.

(** * Part II. The vocabulary of the specification *)

(** ** The belief matrix *)

(** The engine holds a [users] x [items] matrix [X]. *)
Definition shaped (p : Engine) (users items : Z) : Prop :=
  Shape (X p) = [users; items] /\ users * items <= len (Data (X p)).

(** The same, with one cell per pair and no more, as [gauss.Zero] allocates. *)
Definition exact_shape (p : Engine) (users items : Z) : Prop :=
  Shape (X p) = [users; items] /\ len (Data (X p)) = users * items /\
  0 <= users /\ 0 <= items.

(** [Current[u][i]], the estimate for item [i] by user [u] ([0] outside the
    matrix, where the code does not read). *)
Definition Current (p : Engine) (u i : Z) : float :=
  match I (X p) u i with
  | Some k => nth k (Data (X p)) 0%float
  | None => 0%float
  end.

(** The engine [p] with the cells [cells] in [X]. *)
Definition with_cells (p : Engine) (cells : list float) : Engine :=
  set_X (mkArray cells (Shape (X p))) p.

(** ** Comparisons *)

(** A comparison that passes the checks of [Respond]. *)
Definition valid (users items : Z) (prompt : Query) : Prop :=
  len (Choices prompt) = 2 /\ 0 <= User prompt < users /\
  Forall (fun c => 0 <= c < items) (Choices prompt).

(** The first choice out of [0, choices), if any. *)
Definition bad_choice (choices : Z) (cs : list Z) : option Z :=
  find (fun choice => (choice <? 0) || (choice >=? choices)) cs.

(** ** The loss and its gradient *)

(** The hinge term of a comparison [(u, a, b)]:
    [max(0, 1 - (Current[u][a] - Current[u][b]))]. *)
Definition hinge (p : Engine) (x : Query) : float :=
  let a := nth 0 (Choices x) 0 in
  let b := nth 1 (Choices x) 0 in
  math_Max 0 (1 - (Current p (User x) a - Current p (User x) b))%float.

(** The batch loss: the mean of the hinge terms, summed in the order of the
    list. *)
Definition mean_hinge (p : Engine) (samps : list Query) : float :=
  (fold_left (fun sum x => sum + hinge p x) samps 0
   / float64_of_int (len samps))%float.

(** The batch loss as the code computes it at an engine ([None] when a read
    panics). *)
Definition loss (samps : list Query) (p : Engine) : option float :=
  match hingeLoss samps p with
  | Done l _ _ => Some l
  | Abort _ _ => None
  end.

(** The engine with the cell [k] of [Current], and no other, moved by
    [epsilon]. *)
Definition perturbed (p : Engine) (k : nat) : option Engine :=
  match nth_error (Data (X p)) k with
  | Some x =>
      option_map (with_cells p) (store (Data (X p)) k (x + epsilon)%float)
  | None => None
  end.

(** The finite difference of the loss in the cell [k]: the loss with that
    single cell perturbed, minus the unperturbed loss, over [epsilon]. *)
Definition finite_difference (samps : list Query) (p : Engine) (k : nat)
  : option float :=
  match loss samps p, perturbed p k with
  | Some before, Some pk =>
      match loss samps pk with
      | Some after => Some ((after - before) / epsilon)%float
      | None => None
      end
  | _, _ => None
  end.

(** The same difference from the mean of the hinge terms. *)
Definition difference_at (samps : list Query) (p : Engine) (k : nat) : float :=
  match perturbed p k with
  | Some pk => ((mean_hinge pk samps - mean_hinge p samps) / epsilon)%float
  | None => 0%float
  end.

(** A cell value that adding [epsilon] and subtracting it again gives back. *)
Definition restores (x : float) : Prop := ((x + epsilon) - epsilon)%float = x.

(** ** The accelerated proximal step *)

(** [alphaNext = (1 + sqrt(1 + 4 alpha^2)) / 2] *)
Definition alpha_next (alpha : float) : float :=
  ((1 + math_Sqrt (1 + 4 * alpha * alpha)) / 2)%float.

(** The soft threshold: every singular value [s] becomes
    [max(0, s - regularizationStrength)]. *)
Definition soft_threshold (lambda : float) (s : list float) : list float :=
  map (fun si => math_Max 0 (si - lambda)%float) s.

(** The step as the specification lists it, from the engine [p], the
    gradient [G] and the estimate [current] that step 6 saves: [alphaNext];
    [M = Momentum - stepSize G], formed as [Momentum + (-stepSize) G];
    [(U, S, V) = svd(M)]; the soft threshold of [S]; [Previous = current];
    [Current = U diag(S) V^t];
    [Momentum = Current + ((alpha - 1) / alphaNext) (Current - Previous)];
    [alpha = alphaNext]. *)
Definition proximal_step (gauss : Gauss) (p : Engine) (G current : Array)
  : Engine :=
  let alphaNext := alpha_next (Alpha p) in
  let '(U, S', V) :=
    gauss_SVD gauss (gauss_Sum gauss (Z' p) (gauss_Scale gauss G (- Nu p)%float)) in
  let S' := soft_threshold (Lambda p) (Data S') in
  let Previous := current in
  let Current := gauss_Product gauss
                   (gauss_Product gauss U (gauss_Diagonal gauss S'))
                   (gauss_Transpose gauss V) in
  let Momentum :=
    gauss_Sum gauss Current
      (gauss_Scale gauss (gauss_Sum gauss Current (gauss_Scale gauss Previous (-1)%float))
                         ((Alpha p - 1) / alphaNext)%float) in
  mkEngine Current Previous Momentum (Nu p) alphaNext (Lambda p) (T p) (History p).

(** ** Query generation *)

(** The sampling weight of the pair [(a, b)] for user [u]:
    [exp(-|Current[u][a] - Current[u][b]| / temperature)]. *)
Definition weight_of (math_Exp : float -> float) (p : Engine) (u a b : Z)
  : float :=
  math_Exp (- math_Abs (Current p u a - Current p u b) / T p)%float.

(** Every ordered pair of distinct items for user [u], [a] ascending, then
    [b] ascending. *)
Definition pairs_of (math_Exp : float -> float) (p : Engine) (items u : Z)
  : list Query :=
  flat_map (fun a =>
    flat_map (fun b =>
      if a =? b then [] else [mkQuery u [a; b] (weight_of math_Exp p u a b)])
      (upto items)) (upto items).

(** The candidates for a filter: every user when [user] is negative, the
    user [user] alone otherwise. *)
Definition candidate_list (math_Exp : float -> float) (p : Engine)
  (users items user : Z) : list Query :=
  flat_map (fun u =>
    if (user >=? 0) && negb (user =? u) then [] else pairs_of math_Exp p items u)
    (upto users).

(** The sum of the weights, added in the order of the list from [s]. *)
Definition add_weights (s : float) (cands : list Query) : float :=
  fold_left (fun s c => (s + weight c)%float) cands s.

Definition total_weight (cands : list Query) : float := add_weights 0%float cands.

(** The walk: the first candidate whose weight is above what is left of the
    draw once the weights of the candidates before it are taken off. *)
Fixpoint walk (cands : list Query) (offset : float) : option Query :=
  match cands with
  | [] => None
  | c :: cs =>
      if (offset <? weight c)%float then Some c
      else walk cs (offset - weight c)%float
  end.

(** What is left of the draw after the candidates [pre]. *)
Definition left_after (offset : float) (pre : list Query) : float :=
  fold_left (fun o c => (o - weight c)%float) pre offset.

(** The selection as the specification words it: the first candidate, in
    the order of the list, whose cumulative weight exceeds the draw. *)
Fixpoint first_above (cands : list Query) (cum draw : float) : option Query :=
  match cands with
  | [] => None
  | c :: cs =>
      let cum' := (cum + weight c)%float in
      if (draw <? cum')%float then Some c else first_above cs cum' draw
  end.

(** The pair with the item of the higher estimate first. *)
Definition ordered (p : Engine) (c : Query) : Query :=
  match Choices c with
  | [a; b] =>
      if (Current p (User c) a <? Current p (User c) b)%float
      then mkQuery (User c) [b; a] (weight c) else c
  | _ => c
  end.

(** A candidate of a [users] x [items] engine under the filter [user]. *)
Definition candidate (users items user : Z) (c : Query) : Prop :=
  exists a b, Choices c = [a; b] /\ a <> b /\
    0 <= a < items /\ 0 <= b < items /\ 0 <= User c < users /\
    (0 <= user -> User c = user).

(** A run of calls to [Generate], each with the variate it draws and its
    filter, no [Respond] in between; the queries come back in order. *)
Definition Generates (math_Exp : float -> float) (calls : list (float * Z))
  : M (list Query) :=
  for_range calls (fun call qs =>
    q <- Generate math_Exp (fst call) (snd call) ;; ret (qs ++ [q])) [].

(** ** Effects *)

(** [reads m]: whatever the engine, [m] leaves it as it found it and
    evaluates no loss. *)
Definition reads {A} (m : M A) : Prop :=
  forall p, match m p with
            | Done _ p' d => p' = p /\ d = []
            | Abort _ d => d = []
            end.

(** [divides_at P m p]: every batch size [m] divides by, run at [p],
    satisfies [P], whether [m] returns or panics. *)
Definition divides_at {A} (P : Z -> Prop) (m : M A) (p : Engine) : Prop :=
  match m p with
  | Done _ _ d => Forall P d
  | Abort _ d => Forall P d
  end.

Definition divides {A} (P : Z -> Prop) (m : M A) : Prop :=
  forall p, divides_at P m p.

(** [writes_X_cells m]: [m] writes to the cells of [X] and to nothing else. *)
Definition writes_X_cells {A} (m : M A) : Prop :=
  forall p, match m p with
            | Done _ p' _ => p' = with_cells p (Data (X p'))
            | Abort _ _ => True
            end.

(** ** The loops as folds *)

(** The loop that returns: the first element whose body returns decides. *)
Fixpoint first_return {A S R} (f : A -> S -> R + S) (xs : list A) (s : S) : R + S :=
  match xs with
  | [] => inr s
  | x :: xs' => match f x s with inl r => inl r | inr s' => first_return f xs' s' end
  end.

(** One turn of each of the three loops of [Generate] on
    [(candidates, sum)]. *)
Definition turn_b (math_Exp : float -> float) (p : Engine) (u a b : Z)
  (acc : list Query * float) : list Query * float :=
  let '(cands, sum) := acc in
  if a =? b then (cands, sum)
  else (cands ++ [mkQuery u [a; b] (weight_of math_Exp p u a b)],
        (sum + weight_of math_Exp p u a b)%float).

Definition turn_a (math_Exp : float -> float) (p : Engine) (items u a : Z)
  (acc : list Query * float) : list Query * float :=
  fold_left (fun acc b => turn_b math_Exp p u a b acc) (upto items) acc.

Definition turn_u (math_Exp : float -> float) (p : Engine) (items user u : Z)
  (acc : list Query * float) : list Query * float :=
  if (user >=? 0) && negb (user =? u) then acc
  else fold_left (fun acc a => turn_a math_Exp p items u a acc) (upto items) acc.

(** One turn of the walk: return the candidate, reordered, or go on with the
    rest of the draw. *)
Definition turn_walk (p : Engine) (option : Query) (offset : float)
  : Query + float :=
  if (offset <? weight option)%float then inl (ordered p option)
  else inr (offset - weight option)%float.

(** ** The gradient as the code computes it *)

(** What a cell holds once [epsilon] has been added to it and subtracted
    again. *)
Definition restored (x : float) : float := ((x + epsilon) - epsilon)%float.

(** The components [gradientLoss] records for the cells [post] when the cells
    before them hold [pre]: the loss with the cell perturbed, minus [before],
    over [epsilon]; the cell is then left at its restored value. *)
Fixpoint differences (samps : list Query) (p : Engine) (before : float)
  (pre post : list float) : list float :=
  match post with
  | [] => []
  | x :: post' =>
      ((mean_hinge (with_cells p (pre ++ (x + epsilon)%float :: post')) samps
        - before) / epsilon)%float
      :: differences samps p before (pre ++ [restored x]) post'
  end.

(** The engine as [gradientLoss] holds it while it evaluates the cell [k]:
    the cells before [k] restored, the cell [k] perturbed, the cells after it
    untouched. *)
Definition perturbed_after (p : Engine) (k : nat) : option Engine :=
  match nth_error (Data (X p)) k with
  | Some x =>
      Some (with_cells p (map restored (firstn k (Data (X p)))
                          ++ (x + epsilon)%float :: skipn (S k) (Data (X p))))
  | None => None
  end.

(** ** Sessions *)

(** A run of calls to [Respond]; the errors come back in order. *)
Definition Responds (gauss : Gauss) (prompts : list Query)
  : M (list (option error)) :=
  for_range prompts (fun prompt errs =>
    e <- Respond gauss prompt ;; ret (errs ++ [e])) [].

(** [a] is a [users] x [items] matrix: two dimensions, one cell per pair. *)
Definition matrix (users items : Z) (a : Array) : Prop :=
  Shape a = [users; items] /\ len (Data a) = users * items.

(** What a session needs of the matrix library to keep the matrices of the
    engine [users] x [items]: the sum of two such matrices and a multiple of
    one are such matrices, and so is the product [U diag(s) V^t] rebuilt from
    the decomposition [(U, S, V)] of one, for as many values [s] as [S] has. *)
Definition keeps_shape (gauss : Gauss) (users items : Z) : Prop :=
  (forall a b, matrix users items a -> matrix users items b ->
     matrix users items (gauss_Sum gauss a b)) /\
  (forall a k, matrix users items a ->
     matrix users items (gauss_Scale gauss a k)) /\
  (forall m s, matrix users items m ->
     List.length s = List.length (Data (snd (fst (gauss_SVD gauss m)))) ->
     matrix users items
       (gauss_Product gauss
          (gauss_Product gauss (fst (fst (gauss_SVD gauss m)))
                         (gauss_Diagonal gauss s))
          (gauss_Transpose gauss (snd (gauss_SVD gauss m))))).

(** An engine a session goes on from: the three matrices [users] x [items],
    and a history of comparisons that passed the checks of [Respond]. *)
Definition well_formed (users items : Z) (p : Engine) : Prop :=
  exact_shape p users items /\ matrix users items (Xp p) /\
  matrix users items (Z' p) /\ Forall (valid users items) (History p).

(** The checks of [Respond], decided. *)
Definition validb (users items : Z) (prompt : Query) : bool :=
  (len (Choices prompt) =? 2) && (0 <=? User prompt) && (User prompt <? users)
  && forallb (fun c => (0 <=? c) && (c <? items)) (Choices prompt).

(** A value that is not below zero: a zero, a positive number, [+Inf], or
    NaN. *)
Definition not_negative (x : float) : Prop := (x <? 0)%float = false.

(** The same on the specification of binary64: no sign bit on an infinity
    or on a finite number that is not a zero. *)
Definition SF_not_negative (x : spec_float) : bool :=
  match x with
  | S754_infinity true | S754_finite true _ _ => false
  | _ => true
  end.

(** No sign bit at all, or NaN: what the conversion of a length gives. *)
Definition SF_unsigned (x : spec_float) : bool :=
  match x with
  | S754_zero true | S754_infinity true | S754_finite true _ _ => false
  | _ => true
  end.

(** A comparison that the estimates satisfy with the margin of the hinge:
    [1 - (Current[u][a] - Current[u][b]) <= 0], as the code computes it. *)
Definition satisfied (p : Engine) (x : Query) : Prop :=
  let a := nth 0 (Choices x) 0 in
  let b := nth 1 (Choices x) 0 in
  (1 - (Current p (User x) a - Current p (User x) b) <=? 0)%float = true.

(** The finite difference of a hinge term on its slope,
    [((1 + epsilon) - 1) / epsilon] as binary64 computes it:
    0.99999999999988987. *)
Definition slope : float := 0x1.ffffffffffc20p-1%float.

(** An answer of [TestConvergence]: two items, the lower index first. *)
Definition ascending (q : Query) : Prop :=
  exists a b, Choices q = [a; b] /\ a < b.

(** The zero value [Engine{}] of the type, which a caller holds who has not
    called [NewEngine]: no matrix has a dimension. *)
Definition Engine_zero : Engine :=
  mkEngine (mkArray [] []) (mkArray [] []) (mkArray [] []) 0 0 0 0 [].

(** ** Stand-ins for the external libraries, to run the engine on inputs *)

(** [math.Exp] next to zero: for [|x| < 2^-28] Go returns [1 + x] (the
    binary64 value nearest to [e^x] there), and NaN for NaN. The runs below
    call it with such arguments only. *)
Definition Exp_near_zero (x : float) : float := (1 + x)%float.

(** [2^-28] *)
Definition NearZero : float := 0x1p-28%float.

(** An exponential that is Go's next to zero. *)
Definition exp_near_zero (math_Exp : float -> float) : Prop :=
  forall x, (abs x <? NearZero)%float = true -> math_Exp x = (1 + x)%float.

(** An engine holding the matrix [data] of the given shape, its other fields
    as [NewEngine] sets them. *)
Definition engine_of (users choices : Z) (data : list float) : Engine :=
  set_X (mkArray data [users; choices]) (NewEngine users choices).

(** The spacing of binary64 just below 1. *)
Definition ulp1 : float := 0x1p-53%float.

(** Cell by cell. *)
Definition cellwise (f : float -> float -> float) (a b : Array) : Array :=
  mkArray (map (fun xy => f (fst xy) (snd xy)) (combine (Data a) (Data b)))
          (Shape a).

(** The matrix library on 1 x 1 matrices, where its operations are
    arithmetic on the one cell: the product is the product of the cells, the
    transpose and the diagonal change nothing, and [m = u * s * v] with
    [s = |m|], [u] the sign of [m] and [v = 1] is a singular value
    decomposition. *)
Definition OneCell : Gauss :=
  mkGauss
    (cellwise add)
    (fun a k => mkArray (map (fun x => (x * k)%float) (Data a)) (Shape a))
    (cellwise mul)
    (fun s => mkArray s [1; 1])
    (fun a => a)
    (fun a =>
       (mkArray (map (fun m => if (m <? 0)%float then (-1)%float else 1%float)
                     (Data a)) [1; 1],
        mkArray (map abs (Data a)) [1],
        mkArray (map (fun _ => 1%float) (Data a)) [1; 1])).

(** Dense matrices, row after row. *)
Definition rows (a : Array) : Z := nth 0 (Shape a) 0.
Definition cols (a : Array) : Z := nth 1 (Shape a) 0.
Definition cell (a : Array) (i j : Z) : float :=
  nth (Z.to_nat (i * cols a + j)) (Data a) 0%float.
Definition dense (r c : Z) (f : Z -> Z -> float) : Array :=
  mkArray (flat_map (fun i => map (f i) (upto c)) (upto r)) [r; c].
Definition dot (a b : Array) (i j : Z) : float :=
  fold_left (fun s k => (s + cell a i k * cell b k j)%float) (upto (cols a)) 0%float.

(** The matrix library on matrices of one row. Sums, multiples, products,
    transposes and diagonals are those of dense matrices; a row [m]
    decomposes as [m = 1 * |m| * (m / |m|)^t], [|m|] its Euclidean norm, and
    the zero row as [1 * 0 * e1^t]. *)
Definition OneRow : Gauss :=
  mkGauss
    (cellwise add)
    (fun a k => mkArray (map (fun x => (x * k)%float) (Data a)) (Shape a))
    (fun a b => dense (rows a) (cols b) (dot a b))
    (fun s => dense (len s) (len s)
                (fun i j => if i =? j then nth (Z.to_nat i) s 0%float else 0%float))
    (fun a => dense (cols a) (rows a) (fun i j => cell a j i))
    (fun a =>
       let norm := sqrt (fold_left (fun s x => (s + x * x)%float) (Data a) 0%float) in
       (mkArray [1%float] [1; 1],
        mkArray [norm] [1],
        mkArray (if (norm =? 0)%float
                 then match Data a with
                      | [] => []
                      | _ :: r => 1%float :: map (fun _ => 0%float) r
                      end
                 else map (fun x => (x / norm)%float) (Data a))
                [len (Data a); 1])).

Unset Implicit Arguments.

(** * Part III. Proofs *)

(** ** The monad *)

Lemma bind_Done {A B} (m : M A) (k : A -> M B) p a p' d :
  m p = Done a p' d ->
  bind m k p = match k a p' with
               | Done b p'' d' => Done b p'' (d ++ d')
               | Abort msg d' => Abort msg (d ++ d')
               end.
Proof. intros H. unfold bind. now rewrite H. Qed.

Lemma bind_Abort {A B} (m : M A) (k : A -> M B) p msg d :
  m p = Abort msg d -> bind m k p = Abort msg d.
Proof. intros H. unfold bind. now rewrite H. Qed.

(** A step that neither changes the engine nor evaluates a loss disappears
    in front of what follows it. *)
Lemma bind_quiet {A B} (m : M A) (k : A -> M B) p a :
  m p = Done a p [] -> bind m k p = k a p.
Proof.
  intros H. unfold bind. rewrite H. destruct (k a p); reflexivity.
Qed.

Lemma bind_ret {A B} (a : A) (k : A -> M B) p : bind (ret a) k p = k a p.
Proof. now apply bind_quiet. Qed.

Lemma bind_gets {A B} (f : Engine -> A) (k : A -> M B) p :
  bind (gets f) k p = k (f p) p.
Proof. now apply bind_quiet. Qed.

Lemma bind_modify {B} (f : Engine -> Engine) (k : unit -> M B) p :
  bind (modify f) k p = k tt (f p).
Proof. unfold bind, modify. destruct (k tt (f p)); reflexivity. Qed.

Lemma bind_inv {A B} (m : M A) (k : A -> M B) p b p'' d'' :
  bind m k p = Done b p'' d'' ->
  exists a p' d d', m p = Done a p' d /\ k a p' = Done b p'' d' /\ d'' = d ++ d'.
Proof.
  unfold bind. destruct (m p) as [a p' d|msg d]; [|discriminate].
  destruct (k a p') as [b' q d'|msg d'] eqn:E; [|discriminate].
  intros H. inversion H; subst. eauto 8.
Qed.

(** ** Computations that only read *)

Lemma reads_ret {A} (a : A) : reads (ret a).
Proof. intros p. simpl. auto. Qed.

Lemma reads_panic {A} msg : reads (@panic A msg).
Proof. intros p. reflexivity. Qed.

Lemma reads_gets {A} (f : Engine -> A) : reads (gets f).
Proof. intros p. simpl. auto. Qed.

Lemma reads_index {A} (o : option A) : reads (index o).
Proof. destruct o; [apply reads_ret | apply reads_panic]. Qed.

Lemma reads_bind {A B} (m : M A) (k : A -> M B) :
  reads m -> (forall a, reads (k a)) -> reads (bind m k).
Proof.
  intros Hm Hk p. unfold bind. specialize (Hm p).
  destruct (m p) as [a p' d|msg d]; [|assumption].
  destruct Hm as [-> ->]. specialize (Hk a p).
  destruct (k a p) as [b p'' d'|msg d']; simpl; assumption.
Qed.

Lemma reads_for_range {A S} (body : A -> S -> M S) (xs : list A) :
  (forall x s, reads (body x s)) -> forall s, reads (for_range xs body s).
Proof.
  intros Hb. induction xs as [|x xs IH]; intros s; simpl.
  - apply reads_ret.
  - apply reads_bind; auto.
Qed.

Lemma reads_for_return {A S R} (body : A -> S -> M (R + S)) (xs : list A) :
  (forall x s, reads (body x s)) -> forall s, reads (for_return xs body s).
Proof.
  intros Hb. induction xs as [|x xs IH]; intros s; simpl.
  - apply reads_ret.
  - apply reads_bind; auto. intros [r|s']; [apply reads_ret | apply IH].
Qed.

Lemma reads_if {A} (b : bool) (m1 m2 : M A) :
  reads m1 -> reads m2 -> reads (if b then m1 else m2).
Proof. destruct b; auto. Qed.

Create HintDb reads.
#[local] Hint Resolve reads_ret reads_panic reads_gets reads_index
  reads_for_range reads_for_return reads_if : reads.
#[local] Hint Extern 2 (reads (bind _ _)) => apply reads_bind; [|intro] : reads.
#[local] Hint Extern 3 (reads (match ?x with _ => _ end)) => destruct x : reads.

Lemma reads_X_at u i : reads (X_at u i).
Proof. unfold X_at. auto with reads. Qed.

Lemma reads_X_Shape k : reads (X_Shape k).
Proof. unfold X_Shape. auto with reads. Qed.
#[local] Hint Resolve reads_X_at reads_X_Shape : reads.

Lemma reads_threshold S' : reads (threshold S').
Proof.
  unfold threshold. apply reads_bind; [|auto with reads].
  apply reads_for_range. intros i data. auto 8 with reads.
Qed.

Lemma reads_candidates Exp user : reads (candidates Exp user).
Proof.
  unfold candidates. apply reads_bind; [auto with reads|]. intros users.
  apply reads_for_range. intros u acc. apply reads_if; [auto with reads|].
  apply reads_bind; [auto with reads|]. intros choices.
  apply reads_for_range. intros a acc'.
  apply reads_bind; [auto with reads|]. intros choices'.
  apply reads_for_range. intros b [cands sum].
  auto 10 with reads.
Qed.

Lemma reads_Generate Exp variate user : reads (Generate Exp variate user).
Proof.
  unfold Generate. apply reads_bind; [apply reads_candidates|].
  intros [cands sum]. apply reads_bind.
  - apply reads_for_return. intros c offset. auto 12 with reads.
  - intros [q|o]; auto with reads.
Qed.

(** ** The loss evaluations of a computation *)

Lemma divides_reads {A} P (m : M A) : reads m -> divides P m.
Proof.
  intros H p. unfold divides_at. specialize (H p).
  destruct (m p) as [a p' d|msg d].
  - destruct H as [_ ->]. constructor.
  - subst. constructor.
Qed.

Lemma divides_modify P f : divides P (modify f).
Proof. intros p. constructor. Qed.

Lemma divides_divided_by (P : Z -> Prop) n : P n -> divides P (divided_by n).
Proof. intros H p. unfold divides_at. simpl. auto. Qed.

Lemma divides_bind {A B} P (m : M A) (k : A -> M B) :
  divides P m -> (forall a, divides P (k a)) -> divides P (bind m k).
Proof.
  intros Hm Hk p. unfold divides_at, bind. specialize (Hm p).
  unfold divides_at in Hm.
  destruct (m p) as [a p' d|msg d]; [|assumption].
  specialize (Hk a p'). unfold divides_at in Hk.
  destruct (k a p') as [b p'' d'|msg d']; apply Forall_app; auto.
Qed.

Lemma divides_for_range {A S} P (body : A -> S -> M S) (xs : list A) :
  (forall x s, divides P (body x s)) -> forall s, divides P (for_range xs body s).
Proof.
  intros Hb. induction xs as [|x xs IH]; intros s; simpl.
  - apply divides_reads, reads_ret.
  - apply divides_bind; auto.
Qed.

Lemma divides_if {A} P (b : bool) (m1 m2 : M A) :
  divides P m1 -> divides P m2 -> divides P (if b then m1 else m2).
Proof. destruct b; auto. Qed.

Create HintDb divides.
#[local] Hint Resolve divides_modify divides_divided_by divides_for_range
  divides_if : divides.
#[local] Hint Extern 1 (divides _ (ret _)) => apply divides_reads, reads_ret : divides.
#[local] Hint Extern 1 (divides _ (gets _)) => apply divides_reads, reads_gets : divides.
#[local] Hint Extern 1 (divides _ (index _)) => apply divides_reads, reads_index : divides.
#[local] Hint Extern 1 (divides _ (X_at _ _)) => apply divides_reads, reads_X_at : divides.
#[local] Hint Extern 2 (divides _ (bind _ _)) => apply divides_bind; [|intro] : divides.

Lemma divides_X_Data_store P k v : divides P (X_Data_store k v).
Proof. unfold X_Data_store. auto with divides. Qed.
#[local] Hint Resolve divides_X_Data_store : divides.

(** [hingeLoss] divides once, by the length of the batch it is given. *)
Lemma divides_hingeLoss samps : divides (fun n => n = len samps) (hingeLoss samps).
Proof.
  unfold hingeLoss. apply divides_bind.
  - apply divides_reads, reads_for_range. intros x s. auto 10 with reads.
  - intros sum. auto with divides.
Qed.

(** So does every evaluation [gradientLoss] asks for. *)
Lemma divides_gradientLoss samps :
  divides (fun n => n = len samps) (gradientLoss samps).
Proof.
  pose proof (divides_hingeLoss samps) as Hh.
  unfold gradientLoss. apply divides_bind; [auto with divides|]. intros shape.
  apply divides_bind; [exact Hh|]. intros before.
  apply divides_bind; [|auto with divides].
  apply divides_for_range. intros i data. auto 12 with divides.
Qed.

Lemma divides_update gauss samps :
  divides (fun n => n = len samps) (update gauss samps).
Proof.
  unfold update. apply divides_bind; [auto with divides|]. intros alpha.
  apply divides_bind; [auto with divides|]. intros z.
  apply divides_bind; [apply divides_gradientLoss|]. intros g.
  apply divides_bind; [auto with divides|]. intros nu.
  destruct (gauss_SVD gauss _) as [[U S'] V].
  apply divides_bind; [apply divides_reads, reads_threshold|]. intros S''.
  auto 20 with divides.
Qed.

Lemma divides_at_reads_bind {A B} P (m : M A) (k : A -> M B) p :
  reads m -> (forall a, divides_at P (k a) p) -> divides_at P (bind m k) p.
Proof.
  intros Hm Hk. unfold divides_at, bind. specialize (Hm p).
  destruct (m p) as [a p' d|msg d].
  - destruct Hm as [-> ->]. specialize (Hk a). unfold divides_at in Hk.
    destruct (k a p); assumption.
  - subst. constructor.
Qed.

(** ** What [gradientLoss] writes *)

Lemma with_cells_self p : with_cells p (Data (X p)) = p.
Proof. destruct p as [[xd xs] ? ? ? ? ? ? ?]. reflexivity. Qed.

Lemma writes_X_cells_reads {A} (m : M A) : reads m -> writes_X_cells m.
Proof.
  intros H p. specialize (H p). destruct (m p) as [a p' d|]; [|trivial].
  destruct H as [-> _]. symmetry. apply with_cells_self.
Qed.

Lemma writes_X_cells_bind {A B} (m : M A) (k : A -> M B) :
  writes_X_cells m -> (forall a, writes_X_cells (k a)) -> writes_X_cells (bind m k).
Proof.
  intros Hm Hk p. unfold bind. specialize (Hm p).
  destruct (m p) as [a p' d|]; [|trivial]. specialize (Hk a p').
  destruct (k a p') as [b p'' d'|]; [|trivial].
  rewrite Hk, Hm. reflexivity.
Qed.

Lemma writes_X_cells_for_range {A S} (body : A -> S -> M S) (xs : list A) :
  (forall x s, writes_X_cells (body x s)) ->
  forall s, writes_X_cells (for_range xs body s).
Proof.
  intros Hb. induction xs as [|x xs IH]; intros s; simpl.
  - apply writes_X_cells_reads, reads_ret.
  - apply writes_X_cells_bind; auto.
Qed.

Lemma writes_X_cells_store k v : writes_X_cells (X_Data_store k v).
Proof.
  intros p. unfold X_Data_store, bind, gets, modify, index. simpl.
  destruct (store (Data (X p)) k v); simpl; [reflexivity|trivial].
Qed.

Lemma writes_X_cells_hingeLoss samps : writes_X_cells (hingeLoss samps).
Proof.
  unfold hingeLoss. apply writes_X_cells_bind.
  - apply writes_X_cells_reads, reads_for_range. intros x s. auto 10 with reads.
  - intros sum. apply writes_X_cells_bind.
    + intros p. simpl. symmetry. apply with_cells_self.
    + intros _. apply writes_X_cells_reads, reads_ret.
Qed.

Lemma writes_X_cells_gradientLoss samps : writes_X_cells (gradientLoss samps).
Proof.
  unfold gradientLoss.
  apply writes_X_cells_bind; [apply writes_X_cells_reads; auto with reads|].
  intros shape. apply writes_X_cells_bind; [apply writes_X_cells_hingeLoss|].
  intros before. apply writes_X_cells_bind.
  - apply writes_X_cells_for_range. intros i data.
    repeat (apply writes_X_cells_bind;
            [first [ apply writes_X_cells_store | apply writes_X_cells_hingeLoss
                   | apply writes_X_cells_reads; auto with reads ]
            | intros ? ]).
    apply writes_X_cells_reads; auto with reads.
  - intros data. apply writes_X_cells_reads, reads_ret.
Qed.

(** ** binary64: comparison, NaN, [math.Max] *)

Module Float64.

Lemma is_nan_spec x : is_nan x = true <-> Prim2SF x = S754_nan.
Proof.
  unfold Prim2SF. destruct (is_nan x); split; try easy.
  destruct (is_zero x); [discriminate|].
  destruct (is_infinity x); [discriminate|].
  destruct (Z.frexp x) as [r e].
  destruct (shr_fexp _ _ _ _ _) as [shr e'].
  destruct (shr_m shr); discriminate.
Qed.

Lemma is_nan_false x : is_nan x = false <-> Prim2SF x <> S754_nan.
Proof.
  rewrite <- is_nan_spec. destruct (is_nan x); split; congruence.
Qed.

Lemma nan_unique x : is_nan x = true -> x = nan.
Proof.
  intros H. apply is_nan_spec in H. apply Prim2SF_inj. now rewrite H.
Qed.

Lemma SFcompare_antisym x y :
  SFcompare y x = option_map CompOpp (SFcompare x y).
Proof.
  destruct x as [sx|sx| |sx mx ex], y as [sy|sy| |sy my ey]; simpl;
    try reflexivity;
    try (destruct sx; reflexivity); try (destruct sy; reflexivity);
    try (destruct sx, sy; reflexivity).
  destruct sx, sy; simpl; try reflexivity;
    rewrite (Z.compare_antisym ey ex);
    destruct (ey ?= ex)%Z; simpl; try reflexivity;
    rewrite (Pos.compare_cont_antisym mx my Eq); simpl;
    destruct (Pos.compare_cont Eq mx my); reflexivity.
Qed.

Lemma SFcompare_None x y :
  SFcompare x y = None -> x = S754_nan \/ y = S754_nan.
Proof.
  destruct x as [sx|sx| |sx mx ex], y as [sy|sy| |sy my ey]; simpl;
    try discriminate; auto.
Qed.

Lemma eqb_sym x y : (x =? y)%float = (y =? x)%float.
Proof.
  rewrite !eqb_spec. unfold SFeqb.
  rewrite (SFcompare_antisym (Prim2SF x) (Prim2SF y)).
  destruct (SFcompare (Prim2SF x) (Prim2SF y)) as [[]|]; reflexivity.
Qed.

(** A comparison that holds has no NaN operand. *)
Lemma ltb_true_not_nan x y :
  (x <? y)%float = true -> is_nan x = false /\ is_nan y = false.
Proof.
  rewrite ltb_spec, !is_nan_false. unfold SFltb.
  destruct (Prim2SF x), (Prim2SF y); simpl; try discriminate;
    intros _; split; discriminate.
Qed.

Lemma ltb_leb x y : (x <? y)%float = true -> (x <=? y)%float = true.
Proof.
  rewrite ltb_spec, leb_spec. unfold SFltb, SFleb.
  destruct (SFcompare _ _) as [[]|]; congruence.
Qed.

(** Without NaN the order is total: not below means at least. *)
Lemma not_ltb_leb x y :
  is_nan x = false -> is_nan y = false ->
  (x <? y)%float = false -> (y <=? x)%float = true.
Proof.
  rewrite !is_nan_false, ltb_spec, leb_spec. unfold SFltb, SFleb.
  intros Hx Hy. rewrite (SFcompare_antisym (Prim2SF x) (Prim2SF y)).
  destruct (SFcompare (Prim2SF x) (Prim2SF y)) as [[]|] eqn:E; simpl;
    try congruence.
  destruct (SFcompare_None _ _ E); contradiction.
Qed.

(** NaN goes through the arithmetic of a weight. *)
Lemma sub_not_nan x y :
  is_nan (x - y)%float = false -> is_nan x = false /\ is_nan y = false.
Proof.
  rewrite !is_nan_false, sub_spec. unfold SF64sub.
  destruct (Prim2SF x), (Prim2SF y); simpl; intros H; split;
    try discriminate; try (exfalso; apply H; reflexivity).
Qed.

Lemma abs_not_nan x : is_nan (abs x) = false -> is_nan x = false.
Proof.
  rewrite !is_nan_false, abs_spec. destruct (Prim2SF x); simpl; congruence.
Qed.

Lemma opp_not_nan x : is_nan (- x)%float = false -> is_nan x = false.
Proof.
  rewrite !is_nan_false, opp_spec. destruct (Prim2SF x); simpl; congruence.
Qed.

Lemma div_not_nan x y : is_nan (x / y)%float = false -> is_nan x = false.
Proof.
  rewrite !is_nan_false, div_spec. unfold SF64div.
  destruct (Prim2SF x); simpl; congruence.
Qed.

(** The only zero without a sign bit is [+0]. *)
Lemma positive_zero x :
  is_nan x = false -> (x =? 0)%float = true -> get_sign x = false -> x = 0%float.
Proof.
  intros Hn Hz Hs. apply Prim2SF_inj. unfold Prim2SF at 1. rewrite Hn.
  unfold is_zero. change zero with 0%float. rewrite Hz, Hs. reflexivity.
Qed.

(** [math.Max(t, 0)], as [hingeLoss] writes it, is [max(0, t)]. *)
Lemma math_Max_0_comm x : math_Max x 0 = math_Max 0 x.
Proof.
  unfold math_Max.
  change (0 =? infinity)%float with false. rewrite orb_false_r. simpl orb.
  destruct (x =? infinity)%float; [reflexivity|].
  change (is_nan 0) with false. rewrite orb_false_r. simpl orb.
  destruct (is_nan x) eqn:Hn; [reflexivity|].
  change (0 =? 0)%float with true. simpl andb.
  rewrite (eqb_sym 0 x), andb_diag.
  destruct (x =? 0)%float eqn:Hz.
  - change (get_sign 0) with false. cbv iota.
    destruct (get_sign x) eqn:Hs; [reflexivity|]. now apply positive_zero.
  - rewrite !ltb_spec. rewrite eqb_spec in Hz.
    apply is_nan_false in Hn. unfold SFltb, SFeqb in *.
    rewrite (SFcompare_antisym (Prim2SF x) (Prim2SF 0)).
    destruct (SFcompare (Prim2SF x) (Prim2SF 0)) as [[]|] eqn:E; simpl;
      try reflexivity; try discriminate.
    destruct (SFcompare_None _ _ E) as [H|H]; [contradiction|].
    vm_compute in H. discriminate.
Qed.

End Float64.

(** ** Reads and loops on a shaped engine *)

Lemma In_upto n x : In x (upto n) <-> 0 <= x < n.
Proof.
  unfold upto. rewrite in_map_iff. split.
  - intros (k & <- & Hk). apply in_seq in Hk. lia.
  - intros H. exists (Z.to_nat x). split; [lia|]. apply in_seq. lia.
Qed.

Lemma X_Shape_0 p users items :
  Shape (X p) = [users; items] -> X_Shape 0 p = Done users p [].
Proof. intros H. unfold X_Shape, bind, gets. simpl. rewrite H. reflexivity. Qed.

Lemma X_Shape_1 p users items :
  Shape (X p) = [users; items] -> X_Shape 1 p = Done items p [].
Proof. intros H. unfold X_Shape, bind, gets. simpl. rewrite H. reflexivity. Qed.

Lemma X_at_run p users items u i :
  shaped p users items -> 0 <= u < users -> 0 <= i < items ->
  X_at u i p = Done (Current p u i) p [].
Proof.
  intros [Hs Hl] Hu Hi. unfold X_at, Current, bind, gets, I. simpl. rewrite Hs.
  replace ((0 <=? u) && (u <? users) && (0 <=? i) && (i <? items)) with true
    by (symmetry; repeat (apply andb_true_intro; split); lia).
  simpl.
  destruct (nth_error (Data (X p)) (Z.to_nat (u * items + i))) as [v|] eqn:E.
  - simpl. now rewrite (nth_error_nth _ _ 0%float E).
  - apply nth_error_None in E. unfold len in Hl. nia.
Qed.

Lemma exact_shape_shaped p users items :
  exact_shape p users items -> shaped p users items.
Proof. intros (Hs & Hl & _). split; [exact Hs|lia]. Qed.

Lemma shaped_with_cells p users items cells :
  shaped p users items -> List.length cells = List.length (Data (X p)) ->
  shaped (with_cells p cells) users items.
Proof.
  intros [Hs Hl] Hc. split; [exact Hs|]. unfold len in *. simpl. lia.
Qed.

(** A loop whose body, at this engine, only computes. *)
Lemma for_range_run {A S} (body : A -> S -> M S) (f : A -> S -> S) p xs :
  (forall x s, In x xs -> body x s p = Done (f x s) p []) ->
  forall s, for_range xs body s p = Done (fold_left (fun s x => f x s) xs s) p [].
Proof.
  induction xs as [|x xs IH]; intros Hb s; simpl.
  - reflexivity.
  - rewrite (bind_quiet _ _ _ _ (Hb x s (or_introl eq_refl))).
    apply IH. intros; apply Hb; now right.
Qed.

Lemma for_return_run {A S R} (body : A -> S -> M (R + S)) (f : A -> S -> R + S) p xs :
  (forall x s, In x xs -> body x s p = Done (f x s) p []) ->
  forall s, for_return xs body s p = Done (first_return f xs s) p [].
Proof.
  induction xs as [|x xs IH]; intros Hb s; simpl.
  - reflexivity.
  - rewrite (bind_quiet _ _ _ _ (Hb x s (or_introl eq_refl))).
    destruct (f x s) as [r|s']; [reflexivity|].
    apply IH. intros; apply Hb; now right.
Qed.

Lemma store_app pre x post v :
  store (pre ++ x :: post) (List.length pre) v = Some (pre ++ v :: post).
Proof.
  induction pre as [|y pre IH]; simpl; [reflexivity|]. now rewrite IH.
Qed.

Lemma nth_error_middle {A} (pre : list A) x post :
  nth_error (pre ++ x :: post) (List.length pre) = Some x.
Proof. rewrite nth_error_app2, Nat.sub_diag; [reflexivity|lia]. Qed.

Lemma X_Data_store_run p pre x post v :
  Data (X p) = pre ++ x :: post ->
  X_Data_store (List.length pre) v p = Done tt (with_cells p (pre ++ v :: post)) [].
Proof.
  intros H. unfold X_Data_store. rewrite bind_gets, H, store_app. simpl.
  rewrite bind_ret. reflexivity.
Qed.

Lemma perturbed_at p pre x post :
  Data (X p) = pre ++ x :: post ->
  perturbed p (List.length pre)
  = Some (with_cells p (pre ++ (x + epsilon)%float :: post)).
Proof.
  intros H. unfold perturbed. rewrite H, nth_error_middle, store_app. reflexivity.
Qed.

(** ** The candidates *)

Lemma in_pairs_of Exp p items u c :
  In c (pairs_of Exp p items u) <->
  exists a b, 0 <= a < items /\ 0 <= b < items /\ a <> b /\
              c = mkQuery u [a; b] (weight_of Exp p u a b).
Proof.
  unfold pairs_of. rewrite in_flat_map. split.
  - intros (a & Ha & Hc). apply in_flat_map in Hc. destruct Hc as (b & Hb & Hc).
    apply In_upto in Ha, Hb. destruct (Z.eqb_spec a b); [contradiction|].
    destruct Hc as [<-|[]]. eauto 8.
  - intros (a & b & Ha & Hb & Hab & ->). exists a. split; [now apply In_upto|].
    apply in_flat_map. exists b. split; [now apply In_upto|].
    destruct (Z.eqb_spec a b); [contradiction|]. now left.
Qed.

Lemma in_candidate_list Exp p users items user c :
  In c (candidate_list Exp p users items user) <->
  exists u a b, 0 <= u < users /\ (0 <= user -> u = user) /\
                0 <= a < items /\ 0 <= b < items /\ a <> b /\
                c = mkQuery u [a; b] (weight_of Exp p u a b).
Proof.
  unfold candidate_list. rewrite in_flat_map. split.
  - intros (u & Hu & Hc). apply In_upto in Hu.
    destruct ((user >=? 0) && negb (user =? u)) eqn:E; [contradiction|].
    apply in_pairs_of in Hc. destruct Hc as (a & b & Ha & Hb & Hab & ->).
    assert (Hf : 0 <= user -> u = user).
    { intros Hf. apply andb_false_iff in E. destruct E as [E|E]; [lia|].
      apply negb_false_iff in E. lia. }
    exists u, a, b. tauto.
  - intros (u & a & b & Hu & Hf & Ha & Hb & Hab & ->).
    exists u. split; [now apply In_upto|].
    replace ((user >=? 0) && negb (user =? u)) with false.
    + apply in_pairs_of. eauto 8.
    + symmetry. apply andb_false_iff. destruct (Z.geb_spec user 0); [right|now left].
      apply negb_false_iff. lia.
Qed.

Lemma candidate_list_candidates Exp p users items user :
  Forall (candidate users items user) (candidate_list Exp p users items user).
Proof.
  apply Forall_forall. intros c Hc. apply in_candidate_list in Hc.
  destruct Hc as (u & a & b & Hu & Hf & Ha & Hb & Hab & ->).
  exists a, b. simpl. intuition lia.
Qed.

(** Without a user, with fewer than two items, or with a filter that names no
    user of the engine, there is no candidate. *)
Lemma candidate_list_nil Exp p users items user :
  users <= 0 \/ items <= 1 \/ users <= user ->
  candidate_list Exp p users items user = [].
Proof.
  intros H. destruct (candidate_list Exp p users items user) as [|c l] eqn:E;
    [reflexivity|exfalso].
  assert (Hin : In c (candidate_list Exp p users items user))
    by (rewrite E; now left).
  apply in_candidate_list in Hin.
  destruct Hin as (u & a & b & Hu & Hf & Ha & Hb & Hab & _). lia.
Qed.

Lemma ordered_candidate p users items user c :
  candidate users items user c -> candidate users items user (ordered p c).
Proof.
  intros (a & b & Hc & Hab & Ha & Hb & Hu & Hf). unfold ordered. rewrite Hc.
  destruct (_ <? _)%float.
  - exists b, a. simpl. intuition congruence.
  - exists a, b. intuition.
Qed.

(** ** The walk *)

Lemma walk_Some cands offset c :
  walk cands offset = Some c ->
  In c cands /\ exists left, (left <? weight c)%float = true.
Proof.
  revert offset. induction cands as [|c' cs IH]; intros offset; simpl.
  - discriminate.
  - destruct (offset <? weight c')%float eqn:E.
    + intros H. inversion H; subst. split; [now left|eauto].
    + intros H. destruct (IH _ H) as [Hin Hl]. split; [now right|assumption].
Qed.

(** The walk returns the first candidate in the order of the list that is
    above what is left of the draw. *)
Lemma walk_first cands offset c :
  walk cands offset = Some c <->
  exists pre post, cands = pre ++ c :: post /\
    (left_after offset pre <? weight c)%float = true /\
    forall pre1 c1 post1, pre = pre1 ++ c1 :: post1 ->
      (left_after offset pre1 <? weight c1)%float = false.
Proof.
  revert offset. induction cands as [|c' cs IH]; intros offset; simpl.
  - split; [discriminate|]. intros (pre & post & H & _). now destruct pre.
  - destruct (offset <? weight c')%float eqn:E.
    + split.
      * intros H. inversion H; subst. exists [], cs. repeat split; auto.
        intros pre1 c1 post1 H1. now destruct pre1.
      * intros (pre & post & Hc & Hl & Hf). destruct pre as [|c1 pre].
        -- simpl in Hc. congruence.
        -- inversion Hc; subst. specialize (Hf [] c1 pre eq_refl).
           simpl in Hf. congruence.
    + rewrite IH. split.
      * intros (pre & post & -> & Hl & Hf). exists (c' :: pre), post.
        repeat split; auto. intros pre1 c1 post1 H1.
        destruct pre1 as [|c2 pre1]; simpl in H1; inversion H1; subst.
        -- exact E.
        -- simpl. eapply Hf. reflexivity.
      * intros (pre & post & Hc & Hl & Hf). destruct pre as [|c1 pre].
        -- simpl in Hc, Hl. inversion Hc; subst. congruence.
        -- inversion Hc; subst. exists pre, post. repeat split; auto.
           intros pre1 c2 post1 ->. apply (Hf (c1 :: pre1) c2 post1). reflexivity.
Qed.

Lemma walk_None cands offset :
  walk cands offset = None <->
  forall pre c post, cands = pre ++ c :: post ->
    (left_after offset pre <? weight c)%float = false.
Proof.
  revert offset. induction cands as [|c' cs IH]; intros offset; simpl.
  - split; [|reflexivity]. intros _ pre c post H. now destruct pre.
  - destruct (offset <? weight c')%float eqn:E.
    + split; [discriminate|]. intros H. specialize (H [] c' cs eq_refl).
      simpl in H. congruence.
    + rewrite IH. split.
      * intros H pre c post Hc. destruct pre as [|c1 pre]; inversion Hc; subst.
        -- exact E.
        -- simpl. eapply H. reflexivity.
      * intros H pre c post ->. apply (H (c' :: pre) c post). reflexivity.
Qed.

(** ** [candidates] and [Generate] on a shaped engine *)

Section Generate_run.

Variable math_Exp : float -> float.
Variables (p : Engine) (users items : Z).
Hypothesis Hshaped : shaped p users items.

Lemma add_weights_app s l1 l2 :
  add_weights s (l1 ++ l2) = add_weights (add_weights s l1) l2.
Proof. apply fold_left_app. Qed.

Lemma turn_b_fold u a bs cands sum :
  fold_left (fun acc b => turn_b math_Exp p u a b acc) bs (cands, sum) =
  let new := flat_map (fun b => if a =? b then []
               else [mkQuery u [a; b] (weight_of math_Exp p u a b)]) bs in
  (cands ++ new, add_weights sum new).
Proof.
  revert cands sum. induction bs as [|b bs IH]; intros cands sum; simpl.
  - now rewrite app_nil_r.
  - destruct (a =? b); simpl.
    + apply IH.
    + rewrite IH. simpl. now rewrite <- app_assoc.
Qed.

Lemma turn_a_fold u az cands sum :
  fold_left (fun acc a => turn_a math_Exp p items u a acc) az (cands, sum) =
  let new := flat_map (fun a => flat_map (fun b => if a =? b then []
               else [mkQuery u [a; b] (weight_of math_Exp p u a b)])
               (upto items)) az in
  (cands ++ new, add_weights sum new).
Proof.
  revert cands sum. induction az as [|a az IH]; intros cands sum; simpl.
  - now rewrite app_nil_r.
  - unfold turn_a at 2. rewrite turn_b_fold. simpl. rewrite IH. simpl.
    now rewrite <- app_assoc, add_weights_app.
Qed.

Lemma turn_u_fold user us cands sum :
  fold_left (fun acc u => turn_u math_Exp p items user u acc) us (cands, sum) =
  let new := flat_map (fun u => if (user >=? 0) && negb (user =? u) then []
               else pairs_of math_Exp p items u) us in
  (cands ++ new, add_weights sum new).
Proof.
  revert cands sum. induction us as [|u us IH]; intros cands sum; simpl.
  - now rewrite app_nil_r.
  - unfold turn_u at 2. destruct ((user >=? 0) && negb (user =? u)); simpl.
    + apply IH.
    + rewrite turn_a_fold. simpl. rewrite IH. simpl.
      unfold pairs_of. now rewrite <- app_assoc, add_weights_app.
Qed.

(** The three loops collect the candidate list and the sum of its weights. *)
Lemma candidates_run user :
  candidates math_Exp user p =
  Done (candidate_list math_Exp p users items user,
        total_weight (candidate_list math_Exp p users items user)) p [].
Proof.
  destruct Hshaped as [Hs Hl]. unfold candidates.
  rewrite (bind_quiet _ _ _ _ (X_Shape_0 p users items Hs)).
  rewrite (for_range_run _ (turn_u math_Exp p items user)).
  - rewrite turn_u_fold. reflexivity.
  - intros u acc Hu. apply In_upto in Hu. unfold turn_u.
    destruct ((user >=? 0) && negb (user =? u)); [reflexivity|].
    rewrite (bind_quiet _ _ _ _ (X_Shape_1 p users items Hs)).
    apply (for_range_run _ (turn_a math_Exp p items u)).
    intros a acc' Ha. apply In_upto in Ha.
    rewrite (bind_quiet _ _ _ _ (X_Shape_1 p users items Hs)).
    apply (for_range_run _ (turn_b math_Exp p u a)).
    intros b [cands sum] Hb. apply In_upto in Hb. unfold turn_b.
    destruct (a =? b); [reflexivity|].
    rewrite (bind_quiet _ _ _ _ (X_at_run p users items u a Hshaped Hu Ha)).
    rewrite (bind_quiet _ _ _ _ (X_at_run p users items u b Hshaped Hu Hb)).
    reflexivity.
Qed.

Lemma turn_walk_fold cands offset :
  first_return (turn_walk p) cands offset =
  match walk cands offset with
  | Some c => inl (ordered p c)
  | None => inr (left_after offset cands)
  end.
Proof.
  revert offset. induction cands as [|c cs IH]; intros offset; simpl.
  - reflexivity.
  - unfold turn_walk at 1. destruct (offset <? weight c)%float; [reflexivity|].
    apply IH.
Qed.

(** [Generate] in one equation: the walk over the candidate list decides
    between a reordered candidate and the panic; the engine is untouched. *)
Lemma Generate_run variate user :
  Generate math_Exp variate user p =
  let cands := candidate_list math_Exp p users items user in
  match walk cands (variate * total_weight cands)%float with
  | Some c => Done (ordered p c) p []
  | None => Abort "Could not find another question" []
  end.
Proof.
  unfold Generate. rewrite (bind_quiet _ _ _ _ (candidates_run user)).
  cbv zeta.
  pose proof (candidate_list_candidates math_Exp p users items user) as Hc.
  rewrite (bind_quiet _ _ p (first_return (turn_walk p)
    (candidate_list math_Exp p users items user)
    (variate * total_weight (candidate_list math_Exp p users items user))%float)).
  - rewrite turn_walk_fold.
    destruct (walk _ _); reflexivity.
  - apply for_return_run.
    intros c offset Hin. rewrite Forall_forall in Hc.
    destruct (Hc c Hin) as (a & b & Hch & Hab & Ha & Hb & Hu & _).
    unfold turn_walk, ordered. rewrite Hch.
    destruct (offset <? weight c)%float; [|reflexivity]. simpl.
    rewrite !bind_ret.
    rewrite (bind_quiet _ _ _ _ (X_at_run p users items _ a Hshaped Hu Ha)).
    rewrite (bind_quiet _ _ _ _ (X_at_run p users items _ b Hshaped Hu Hb)).
    destruct (Current p (User c) a <? Current p (User c) b)%float; reflexivity.
Qed.

End Generate_run.

(** ** The checks of [Respond] *)

Lemma bad_choice_Some items cs c :
  bad_choice items cs = Some c -> In c cs /\ (c < 0 \/ items <= c).
Proof.
  intros H. apply find_some in H. destruct H as [Hin Hc]. split; [assumption|].
  apply orb_true_iff in Hc. destruct Hc as [Hc|Hc]; lia.
Qed.

Lemma bad_choice_None items cs :
  bad_choice items cs = None <-> Forall (fun c => 0 <= c < items) cs.
Proof.
  rewrite Forall_forall. split.
  - intros H c Hin. pose proof (find_none _ _ H c Hin) as Hc.
    apply orb_false_iff in Hc. lia.
  - intros H. destruct (bad_choice items cs) as [c|] eqn:E; [|reflexivity].
    apply bad_choice_Some in E. destruct E as [Hin Hc]. specialize (H c Hin). lia.
Qed.

Lemma check_choices_run p users items cs :
  Shape (X p) = [users; items] ->
  for_return cs (fun choice (_ : unit) =>
      choices <- X_Shape 1 ;;
      if (choice <? 0) || (choice >=? choices)
      then ret (inl (ErrChoice choice choices))
      else ret (inr tt)) tt p
  = Done (match bad_choice items cs with
          | Some c => inl (ErrChoice c items)
          | None => inr tt
          end) p [].
Proof.
  intros Hs. induction cs as [|c cs IH]; cbn [for_return].
  - reflexivity.
  - rewrite bind_quiet with (a := if (c <? 0) || (c >=? items)
                                  then inl (ErrChoice c items) else inr tt).
    + unfold bad_choice. simpl. destruct ((c <? 0) || (c >=? items)); [reflexivity|].
      exact IH.
    + rewrite (bind_quiet _ _ _ _ (X_Shape_1 p users items Hs)).
      destruct ((c <? 0) || (c >=? items)); reflexivity.
Qed.

(** [Respond] in one equation on an engine whose [X] has two dimensions. *)
Lemma Respond_run gauss p users items prompt :
  Shape (X p) = [users; items] ->
  Respond gauss prompt p =
  if negb (len (Choices prompt) =? 2) then Done (Some ErrBinary) p []
  else if (User prompt <? 0) || (User prompt >=? users)
  then Done (Some (ErrUser (User prompt) users)) p []
  else match bad_choice items (Choices prompt) with
       | Some c => Done (Some (ErrChoice c items)) p []
       | None =>
           (update gauss (History p ++ [prompt]) ;;; ret None)
             (set_History (History p ++ [prompt]) p)
       end.
Proof.
  intros Hs. unfold Respond.
  destruct (negb (len (Choices prompt) =? 2)); [reflexivity|].
  rewrite (bind_quiet _ _ _ _ (X_Shape_0 p users items Hs)).
  destruct ((User prompt <? 0) || (User prompt >=? users)); [reflexivity|].
  rewrite (bind_quiet _ _ _ _ (check_choices_run p users items _ Hs)).
  destruct (bad_choice items (Choices prompt)); [reflexivity|].
  rewrite bind_gets, bind_modify, bind_gets. reflexivity.
Qed.

(** ** The update step *)

(** The loop of [update] over [S.Data] rewrites the slice in place, cell
    after cell. *)
Lemma threshold_loop_run p rest : forall pre,
  for_range (seq (List.length pre) (List.length rest)) (fun i data =>
      si <- index (nth_error data i) ;;
      lambda <- gets Lambda ;;
      index (store data i (math_Max 0 (si - lambda)%float))) (pre ++ rest) p
  = Done (pre ++ soft_threshold (Lambda p) rest) p [].
Proof.
  induction rest as [|x rest IH]; intros pre; simpl.
  - reflexivity.
  - rewrite bind_quiet with (a := pre ++ math_Max 0 (x - Lambda p)%float :: rest).
    + specialize (IH (pre ++ [math_Max 0 (x - Lambda p)%float])).
      rewrite length_app, Nat.add_comm in IH. simpl in IH.
      rewrite <- !app_assoc in IH. exact IH.
    + rewrite nth_error_middle. simpl. rewrite bind_ret, bind_gets.
      rewrite store_app. reflexivity.
Qed.

Lemma threshold_run S' p :
  threshold S' p
  = Done (mkArray (soft_threshold (Lambda p) (Data S')) (Shape S')) p [].
Proof.
  unfold threshold.
  rewrite (bind_quiet _ _ _ _ (threshold_loop_run p (Data S') [])). reflexivity.
Qed.

Lemma Xp_proximal_step gauss p G current :
  Xp (proximal_step gauss p G current) = current.
Proof.
  unfold proximal_step. destruct (gauss_SVD gauss _) as [[U S'] V]. reflexivity.
Qed.

Lemma History_proximal_step gauss p G current :
  History (proximal_step gauss p G current) = History p.
Proof.
  unfold proximal_step. destruct (gauss_SVD gauss _) as [[U S'] V]. reflexivity.
Qed.

(** [update] is the proximal step at the gradient [gradientLoss] returns and
    the estimate it leaves behind. *)
Lemma update_run gauss samps p G p1 d :
  gradientLoss samps p = Done G p1 d ->
  update gauss samps p = Done tt (proximal_step gauss p G (X p1)) d.
Proof.
  intros Hg. pose proof (writes_X_cells_gradientLoss samps p) as Hw.
  rewrite Hg in Hw. unfold update.
  rewrite bind_gets, bind_gets. rewrite (bind_Done _ _ _ _ _ _ Hg).
  rewrite bind_gets. unfold proximal_step.
  replace (Nu p1) with (Nu p) by (rewrite Hw; reflexivity).
  destruct (gauss_SVD gauss _) as [[U S'] V].
  rewrite (bind_quiet _ _ _ _ (threshold_run S' p1)).
  replace (Lambda p1) with (Lambda p) by (rewrite Hw; reflexivity).
  rewrite bind_gets, bind_modify, bind_modify, !bind_gets, bind_modify.
  unfold modify, alpha_next. simpl. rewrite app_nil_r.
  rewrite Hw. reflexivity.
Qed.

Lemma update_abort gauss samps p msg d :
  gradientLoss samps p = Abort msg d -> update gauss samps p = Abort msg d.
Proof.
  intros Hg. unfold update. rewrite bind_gets, bind_gets.
  apply bind_Abort. exact Hg.
Qed.

(** [Respond] on a valid comparison: append, then update on the whole
    history. *)
Lemma Respond_accepts gauss p users items prompt G p1 d :
  Shape (X p) = [users; items] ->
  valid users items prompt ->
  gradientLoss (History p ++ [prompt]) (set_History (History p ++ [prompt]) p)
    = Done G p1 d ->
  Respond gauss prompt p =
  Done None (proximal_step gauss (set_History (History p ++ [prompt]) p) G (X p1)) d.
Proof.
  intros Hs (Hl & Hu & Hc) Hg.
  rewrite (Respond_run gauss p users items prompt Hs).
  rewrite Hl. simpl.
  replace ((User prompt <? 0) || (User prompt >=? users)) with false
    by (symmetry; apply orb_false_iff; split; lia).
  apply bad_choice_None in Hc. rewrite Hc.
  rewrite (bind_Done _ _ _ _ _ _ (update_run gauss _ _ _ _ _ Hg)).
  simpl. now rewrite app_nil_r.
Qed.

(** ** The loss and the gradient on a shaped engine *)

(** [hingeLoss] returns the mean of the hinge terms, after one division. *)
Lemma hingeLoss_run p users items samps :
  shaped p users items -> Forall (valid users items) samps ->
  hingeLoss samps p = Done (mean_hinge p samps) p [len samps].
Proof.
  intros Hs Hv. unfold hingeLoss.
  rewrite bind_quiet
    with (a := fold_left (fun sum x => sum + hinge p x)%float samps 0%float).
  - reflexivity.
  - rewrite (for_range_run _ (fun x sum => (sum + hinge p x)%float)); [reflexivity|].
    intros x sum Hin. rewrite Forall_forall in Hv.
    destruct (Hv x Hin) as (Hl & Hu & Hc). unfold len in Hl.
    destruct (Choices x) as [|a [|b [|c l]]] eqn:Ec; simpl in Hl; try lia.
    inversion Hc as [|? ? Ha Hc']; subst. inversion Hc' as [|? ? Hb _]; subst.
    simpl. rewrite !bind_ret.
    rewrite (bind_quiet _ _ _ _ (X_at_run p users items _ a Hs Hu Ha)).
    rewrite (bind_quiet _ _ _ _ (X_at_run p users items _ b Hs Hu Hb)).
    unfold hinge. rewrite Ec. simpl. rewrite Float64.math_Max_0_comm. reflexivity.
Qed.

(** The loop of [gradientLoss] over the cells that are still to do, when each
    of them is restored exactly: the engine comes back as it was, and the
    result holds one finite difference per cell. *)
Lemma gradient_loop_run p users items samps :
  shaped p users items -> Forall (valid users items) samps ->
  forall post pre done,
  Data (X p) = pre ++ post -> List.length done = List.length pre ->
  Forall restores post ->
  for_range (seq (List.length pre) (List.length post)) (fun i data =>
      a <- gets X ;;
      xi <- index (nth_error (Data a) i) ;;
      X_Data_store i (xi + epsilon)%float ;;;
      after <- hingeLoss samps ;;
      data' <- index (store data i ((after - mean_hinge p samps) / epsilon)%float) ;;
      a' <- gets X ;;
      xi' <- index (nth_error (Data a') i) ;;
      X_Data_store i (xi' - epsilon)%float ;;;
      ret data') (done ++ repeat 0%float (List.length post)) p
  = Done (done ++ map (difference_at samps p)
                      (seq (List.length pre) (List.length post)))
         p (map (fun _ => len samps) post).
Proof.
  intros Hs Hv. induction post as [|x post IH]; intros pre done Hd Hl Hr.
  - reflexivity.
  - inversion Hr as [|? ? Hx Hr']; subst.
    set (v := difference_at samps p (List.length pre)).
    cbn [List.length seq repeat for_range map].
    assert (Hlen : List.length (pre ++ (x + epsilon)%float :: post)
                   = List.length (Data (X p))).
    { rewrite Hd, !length_app. reflexivity. }
    pose proof (shaped_with_cells p users items _ Hs Hlen) as Hs'.
    rewrite bind_Done with (a := done ++ v :: repeat 0%float (List.length post))
                           (p' := p) (d := [len samps]).
    + assert (E1 : List.length (pre ++ [x]) = S (List.length pre))
        by (rewrite length_app; simpl; lia).
      specialize (IH (pre ++ [x]) (done ++ [v])).
      rewrite E1, <- !app_assoc in IH. cbn [app] in IH.
      rewrite IH; auto.
      rewrite length_app. simpl. lia.
    + rewrite bind_gets, Hd, nth_error_middle. cbn [index]. rewrite bind_ret.
      rewrite (bind_Done _ _ _ _ _ _ (X_Data_store_run p pre x post _ Hd)).
      rewrite (bind_Done _ _ _ _ _ _ (hingeLoss_run _ users items samps Hs' Hv)).
      rewrite <- Hl, store_app. cbn [index]. rewrite bind_ret, bind_gets.
      cbn [with_cells set_X X Data]. rewrite Hl, nth_error_middle. cbn [index].
      rewrite bind_ret.
      rewrite (bind_Done _ _ _ _ _ _
        (X_Data_store_run (with_cells p (pre ++ (x + epsilon)%float :: post))
           pre _ post _ eq_refl)).
      rewrite Hx. change (with_cells (with_cells p ?c1) ?c2) with (with_cells p c2).
      rewrite <- Hd, with_cells_self.
      unfold v, difference_at. rewrite (perturbed_at p pre x post Hd). reflexivity.
Qed.

Lemma gradientLoss_run p users items samps :
  exact_shape p users items -> Forall (valid users items) samps ->
  Forall restores (Data (X p)) ->
  gradientLoss samps p =
  Done (mkArray (map (difference_at samps p) (seq 0 (List.length (Data (X p)))))
                (Shape (X p)))
       p (len samps :: map (fun _ => len samps) (Data (X p))).
Proof.
  intros He Hv Hr. pose proof (exact_shape_shaped p users items He) as Hs.
  destruct He as (Hsh & Hl & Hu & Hi).
  unfold gradientLoss. rewrite bind_gets.
  rewrite (bind_Done _ _ _ _ _ _ (hingeLoss_run p users items samps Hs Hv)).
  assert (Hz : Data (Zero (Shape (X p)))
               = repeat 0%float (List.length (Data (X p)))).
  { rewrite Hsh. unfold Zero. cbn [Data fold_right]. f_equal. unfold len in Hl. nia. }
  rewrite Hz, repeat_length.
  rewrite (bind_Done _ _ _ _ _ _
    (gradient_loop_run p users items samps Hs Hv (Data (X p)) [] [] eq_refl eq_refl Hr)).
  simpl. now rewrite app_nil_r.
Qed.

Lemma finite_difference_run p users items samps k :
  shaped p users items -> Forall (valid users items) samps ->
  (k < List.length (Data (X p)))%nat ->
  finite_difference samps p k = Some (difference_at samps p k).
Proof.
  intros Hs Hv Hk. unfold finite_difference, difference_at, loss.
  rewrite (hingeLoss_run p users items samps Hs Hv).
  destruct (nth_error (Data (X p)) k) as [x|] eqn:E;
    [|apply nth_error_None in E; lia].
  apply nth_error_split in E. destruct E as (pre & post & Hd & <-).
  rewrite (perturbed_at p pre x post Hd).
  rewrite (hingeLoss_run _ users items samps); auto.
  apply shaped_with_cells; auto. rewrite Hd, !length_app. reflexivity.
Qed.

(** * The claims *)

(** ** Respond and the update step *)

(** C1, where the code leaves the claim. [Respond] saves as [Previous] the
    estimate as [gradientLoss] left it: from estimates [[0.125; 0]] the
    saved matrix is [[0.12499999999999999; 0]], whatever the matrix library
    computes. *)
Theorem Respond_saves_moved_Current (gauss : Gauss) :
  let p := engine_of 1 2 [0.125%float; 0%float] in
  let prompt := mkQuery 0 [0; 1] 0%float in
  exists p' d,
    Respond gauss prompt p = Done None p' d /\
    Data (Xp p') = [0x1.fffffffffffffp-4%float; 0%float] /\
    Xp p' <> X p.
Proof.
  intros p prompt.
  destruct (gradientLoss (History p ++ [prompt])
              (set_History (History p ++ [prompt]) p)) as [G p1 d|msg d] eqn:E;
    [|vm_compute in E; discriminate].
  assert (Hv : valid 1 2 prompt).
  { repeat split; try (simpl; lia). repeat constructor; lia. }
  rewrite (Respond_accepts gauss p 1 2 prompt G p1 d eq_refl Hv E).
  eexists _, d. split; [reflexivity|]. rewrite Xp_proximal_step.
  assert (H : Data (X p1) = [0x1.fffffffffffffp-4%float; 0%float]).
  { vm_compute in E. injection E as _ <- _. reflexivity. }
  split; [exact H|].
  intros Heq. rewrite Heq in H. vm_compute in H. discriminate.
Qed.

(** C2. On a [users] x [items] engine, a comparison that has not exactly two
    items, or a user outside [0, users), or an item outside [0, items), makes
    [Respond] return an error with the engine as it was and no loss evaluated;
    and whenever [Respond] returns an error the engine is as it was: the
    history is appended, and the update run, only after every check passed. *)
Theorem Respond_rejects_unchanged (gauss : Gauss) p users items prompt :
  Shape (X p) = [users; items] ->
  (len (Choices prompt) <> 2 \/ User prompt < 0 \/ users <= User prompt \/
   (exists c, In c (Choices prompt) /\ (c < 0 \/ items <= c)) ->
   exists err, Respond gauss prompt p = Done (Some err) p []) /\
  (forall err p' d,
     Respond gauss prompt p = Done (Some err) p' d -> p' = p /\ d = []).
Proof.
  intros Hs. rewrite (Respond_run gauss p users items prompt Hs).
  destruct (Z.eqb_spec (len (Choices prompt)) 2) as [Hl|Hl]; simpl.
  2:{ split; [eauto|]. intros err p' d H. injection H as _ <- <-. auto. }
  destruct (Z.ltb_spec (User prompt) 0) as [Hu|Hu]; simpl.
  { split; [eauto|]. intros err p' d H. injection H as _ <- <-. auto. }
  destruct (Z.geb_spec (User prompt) users) as [Hu'|Hu']; simpl.
  { split; [eauto|]. intros err p' d H. injection H as _ <- <-. auto. }
  destruct (bad_choice items (Choices prompt)) as [c|] eqn:Ec.
  { split; [eauto|]. intros err p' d H. injection H as _ <- <-. auto. }
  split.
  - intros [H|[H|[H|(c & Hin & Hc)]]]; try lia.
    apply bad_choice_None in Ec. rewrite Forall_forall in Ec.
    specialize (Ec c Hin). lia.
  - intros err p' d H. apply bind_inv in H.
    destruct H as (a & p1 & d1 & d2 & _ & H & _). discriminate.
Qed.

Lemma Respond_rejects_unchanged_witness :
  let p := NewEngine 2 2 in
  let prompt := mkQuery 0 [0; 2] 0%float in
  (exists err, Respond OneCell prompt p = Done (Some err) p []) /\
  (forall err p' d,
     Respond OneCell prompt p = Done (Some err) p' d -> p' = p /\ d = []).
Proof.
  intros p prompt.
  destruct (Respond_rejects_unchanged OneCell p 2 2 prompt eq_refl) as [H1 H2].
  split; [|exact H2].
  apply H1. right. right. right. exists 2. simpl. split; [auto|lia].
Defined.

(** C10. Every loss evaluation a call to [Respond] performs, whether the call
    returns or panics, divides by the length of the history with the new
    comparison appended: at least 1, never 0. *)
Theorem Respond_divides_by_appended_history (gauss : Gauss) prompt p :
  match Respond gauss prompt p with
  | Done _ _ divs => Forall (fun n => n = len (History p) + 1 /\ 1 <= n) divs
  | Abort _ divs => Forall (fun n => n = len (History p) + 1 /\ 1 <= n) divs
  end.
Proof.
  change (divides_at (fun n => n = len (History p) + 1 /\ 1 <= n)
            (Respond gauss prompt) p).
  unfold Respond. destruct (negb _); [constructor|].
  apply divides_at_reads_bind; [apply reads_X_Shape|]. intros users.
  destruct (_ || _); [constructor|].
  apply divides_at_reads_bind.
  { apply reads_for_return. intros c []. auto 8 with reads. }
  intros [e|[]]; [constructor|]. unfold divides_at.
  rewrite bind_gets, bind_modify, bind_gets. simpl History.
  assert (H : divides (fun n => n = len (History p ++ [prompt]))
                (update gauss (History p ++ [prompt]) ;;; ret (@None error))).
  { apply divides_bind; [apply divides_update|]. intros _. auto with divides. }
  specialize (H (set_History (History p ++ [prompt]) p)). unfold divides_at in H.
  assert (Hl : forall n, n = len (History p ++ [prompt]) ->
                         n = len (History p) + 1 /\ 1 <= n).
  { intros n ->. unfold len. rewrite length_app. simpl. lia. }
  destruct (bind _ _ _); exact (Forall_impl _ Hl H).
Qed.

(** ** The loss and the gradient *)

(** C3, where the code leaves the claim. With estimates [[0.99995; 0]] and
    the history [(user 0: 0 over 1)], the component [gradientLoss] computes
    for the cell 1 is 0.99999999999877964, and the finite difference of the
    loss in that cell is 0.99999999999988987: when the cell 1 is perturbed,
    the cell 0 has already been through its own perturbation and holds
    0.99995000000000012. *)
Theorem gradientLoss_not_finite_difference :
  let p := engine_of 1 2 [0x1.fff972474538fp-1%float; 0%float] in
  let samps := [mkQuery 0 [0; 1] 0%float] in
  exists G p' d,
    gradientLoss samps p = Done G p' d /\
    nth_error (Data G) 1 = Some 0x1.fffffffffd510p-1%float /\
    finite_difference samps p 1 = Some 0x1.ffffffffffc20p-1%float.
Proof.
  intros p samps.
  destruct (gradientLoss samps p) as [G p' d|msg d] eqn:E;
    [|vm_compute in E; discriminate].
  exists G, p', d. split; [reflexivity|]. split.
  - vm_compute in E. injection E as <- _ _. reflexivity.
  - vm_compute. reflexivity.
Qed.

(** C5, where the code leaves the claim. A cell that holds 0.125 holds
    0.12499999999999999 once [gradientLoss] has added [epsilon] to it and
    subtracted it again: binary64 rounds the sum, and the difference does not
    come back to 0.125. *)
Theorem gradientLoss_moves_Current :
  let p := engine_of 1 2 [0.125%float; 0%float] in
  let samps := [mkQuery 0 [0; 1] 0%float] in
  exists G p' d,
    gradientLoss samps p = Done G p' d /\
    Data (X p') = [0x1.fffffffffffffp-4%float; 0%float] /\
    X p' <> X p.
Proof.
  intros p samps.
  destruct (gradientLoss samps p) as [G p' d|msg d] eqn:E;
    [|vm_compute in E; discriminate].
  exists G, p', d. split; [reflexivity|].
  assert (H : Data (X p') = [0x1.fffffffffffffp-4%float; 0%float]).
  { vm_compute in E. injection E as _ <- _. reflexivity. }
  split; [exact H|].
  intros Heq. rewrite Heq in H. vm_compute in H. discriminate.
Qed.

(** ** Generate *)

(** The first query of the repository's examples: on [NewEngine(2, 2)] a
    variate in [0.75, 1) makes [Generate(-1)] return user 1 with [1 0], and
    [Generate(0)] return user 0 with [1 0], as [ExampleEngine_all] and
    [ExampleEngine_one] print for their common first draw. *)
Example first_query_of_the_examples :
  Generate Exp_near_zero 0.75%float (-1) (NewEngine 2 2)
    = Done (mkQuery 1 [1; 0] 1%float) (NewEngine 2 2) [] /\
  Generate Exp_near_zero 0.75%float 0 (NewEngine 2 2)
    = Done (mkQuery 0 [1; 0] 1%float) (NewEngine 2 2) [].
Proof. vm_compute. split; reflexivity. Qed.

(** C4, as amended. On a [users] x [items] engine the candidates of
    [Generate] are exactly the queries [(u, [a; b])] with [a <> b], for every
    user when the filter is negative and for the user of the filter
    otherwise, each with the weight
    [exp(-|Current[u][a] - Current[u][b]| / temperature)], listed by user,
    then [a], then [b]; and [Generate] returns [q] exactly when [q] is the
    first candidate of that list whose weight is above what is left of
    [variate * total] once the weights before it are taken off one by one,
    with its items swapped when the first one has the lower estimate. *)
Theorem Generate_draws Exp p users items variate user :
  shaped p users items ->
  let cands := candidate_list Exp p users items user in
  let draw := (variate * total_weight cands)%float in
  (forall c, In c cands <->
     exists u a b, 0 <= u < users /\ (0 <= user -> u = user) /\
       0 <= a < items /\ 0 <= b < items /\ a <> b /\
       c = mkQuery u [a; b]
             (Exp (- abs (Current p u a - Current p u b) / T p)%float)) /\
  (forall q p' d,
     Generate Exp variate user p = Done q p' d <->
     p' = p /\ d = [] /\
     exists pre c post, cands = pre ++ c :: post /\
       (left_after draw pre <? weight c)%float = true /\
       (forall pre1 c1 post1, pre = pre1 ++ c1 :: post1 ->
          (left_after draw pre1 <? weight c1)%float = false) /\
       q = ordered p c).
Proof.
  intros Hs cands draw. split.
  - intros c. apply in_candidate_list.
  - intros q p' d. rewrite (Generate_run Exp p users items Hs). cbv zeta.
    fold cands. fold draw. destruct (walk cands draw) as [c|] eqn:E.
    + apply walk_first in E. destruct E as (pre & post & Hc & Hl & Hf). split.
      * intros H. injection H as <- <- <-. repeat split; auto.
        exists pre, c, post. auto.
      * intros (-> & -> & pre' & c' & post' & Hc' & Hl' & Hf' & ->).
        assert (W : walk cands draw = Some c') by (apply walk_first; eauto 8).
        assert (W' : walk cands draw = Some c) by (apply walk_first; eauto 8).
        congruence.
    + split; [discriminate|].
      intros (_ & _ & pre & c & post & Hc & Hl & _).
      rewrite walk_None in E. rewrite (E pre c post Hc) in Hl. discriminate.
Qed.

Lemma Generate_draws_witness :
  let p := NewEngine 1 2 in
  let cands := candidate_list Exp_near_zero p 1 2 (-1) in
  let draw := (0.5 * total_weight cands)%float in
  shaped p 1 2 /\
  exists pre c post, cands = pre ++ c :: post /\
    (left_after draw pre <? weight c)%float = true /\
    (forall pre1 c1 post1, pre = pre1 ++ c1 :: post1 ->
       (left_after draw pre1 <? weight c1)%float = false) /\
    mkQuery 0 [1; 0] 1%float = ordered p c.
Proof.
  intros p cands draw.
  assert (Hs : shaped p 1 2) by (split; [reflexivity|vm_compute; discriminate]).
  split; [exact Hs|].
  assert (Hg : Generate Exp_near_zero 0.5%float (-1) p
               = Done (mkQuery 0 [1; 0] 1%float) p [])
    by (vm_compute; reflexivity).
  exact (proj2 (proj2 (proj1
    (proj2 (Generate_draws Exp_near_zero p 1 2 0.5%float (-1) Hs)
       (mkQuery 0 [1; 0] 1%float) p []) Hg))).
Defined.

(** C4, the claim as stated, fails twice. At estimates [[0; 2^-53]] and
    variate 0 the walk selects the pair (0, 1) and [Generate] returns it
    swapped, as (1, 0). At estimates [[0; 3 * 2^-53; 0]] and variate 1/2 the
    walk by subtraction stops at the pair (1, 0) while the first pair whose
    cumulative weight exceeds the draw is (1, 2). *)
Lemma Generate_not_first_above :
  let pa := engine_of 1 2 [0%float; ulp1] in
  let ca := candidate_list Exp_near_zero pa 1 2 (-1) in
  let pb := engine_of 1 3 [0%float; 0x1.8p-52%float; 0%float] in
  let cb := candidate_list Exp_near_zero pb 1 3 (-1) in
  (Generate Exp_near_zero 0%float (-1) pa
     = Done (mkQuery 0 [1; 0] (1 - ulp1)%float) pa [] /\
   first_above ca 0%float (0 * total_weight ca)%float
     = Some (mkQuery 0 [0; 1] (1 - ulp1)%float)) /\
  (Generate Exp_near_zero 0.5%float (-1) pb
     = Done (mkQuery 0 [1; 0] (1 - 0x1.8p-52)%float) pb [] /\
   first_above cb 0%float (0.5 * total_weight cb)%float
     = Some (mkQuery 0 [1; 2] (1 - 0x1.8p-52)%float)).
Proof. vm_compute. repeat split. Qed.

(** C6. On an engine whose exponential sends NaN to NaN (as [math.Exp]
    does), the query [Generate] returns lists first the item whose current
    estimate is the higher: [Current[user][items[0]] >= Current[user][items[1]]]. *)
Theorem Generate_orders_items Exp p users items variate user q p' d :
  Exp nan = nan ->
  shaped p users items ->
  Generate Exp variate user p = Done q p' d ->
  exists a b, Choices q = [a; b] /\
    (Current p (User q) b <=? Current p (User q) a)%float = true.
Proof.
  intros Hnan Hs. rewrite (Generate_run Exp p users items Hs). cbv zeta.
  destruct (walk _ _) as [c|] eqn:E; [|discriminate].
  intros H. injection H as <- _ _.
  apply walk_Some in E. destruct E as [Hin [left Hlt]].
  apply in_candidate_list in Hin.
  destruct Hin as (u & a & b & _ & _ & _ & _ & _ & ->). simpl in Hlt.
  assert (Hab : is_nan (Current p u a) = false /\ is_nan (Current p u b) = false).
  { apply Float64.ltb_true_not_nan in Hlt. destruct Hlt as [_ Hw].
    apply Float64.sub_not_nan, Float64.abs_not_nan, Float64.opp_not_nan.
    apply Float64.div_not_nan with (y := T p).
    destruct (is_nan (- abs (Current p u a - Current p u b) / T p)%float) eqn:En;
      [|reflexivity].
    apply Float64.nan_unique in En. unfold weight_of, math_Abs in Hw.
    rewrite En, Hnan in Hw. discriminate. }
  destruct Hab as [Ha Hb]. unfold ordered. simpl.
  destruct (Current p u a <? Current p u b)%float eqn:Ec; simpl.
  - exists b, a. split; [reflexivity|]. now apply Float64.ltb_leb.
  - exists a, b. split; [reflexivity|]. now apply Float64.not_ltb_leb.
Qed.

Lemma Generate_orders_items_witness :
  let p := engine_of 1 2 [0%float; ulp1] in
  Generate Exp_near_zero 0%float 0 p
    = Done (mkQuery 0 [1; 0] (1 - ulp1)%float) p [] /\
  exists a b, [1; 0] = [a; b] /\ (Current p 0 b <=? Current p 0 a)%float = true.
Proof.
  set (p := engine_of 1 2 [0%float; ulp1]).
  assert (Hg : Generate Exp_near_zero 0%float 0 p
               = Done (mkQuery 0 [1; 0] (1 - ulp1)%float) p [])
    by (vm_compute; reflexivity).
  split; [exact Hg|].
  refine (Generate_orders_items Exp_near_zero p 1 2 0%float 0 _ p [] _ _ Hg).
  - vm_compute; reflexivity.
  - split; [reflexivity|vm_compute; discriminate].
Defined.

(** C7, where the code leaves the claim. With estimates [[0; 6 * 2^-53;
    4 * 2^-53]] the six candidates have positive weights, yet at the variate
    [1 - 2^-53] the walk passes them all and [Generate] panics: the sum of
    the weights and the subtractions of the walk round differently. This
    holds for every exponential that is Go's next to zero. *)
Theorem Generate_panics_with_candidates Exp :
  exp_near_zero Exp ->
  let p := engine_of 1 3 [0%float; 0x1.8p-51%float; 0x1p-51%float] in
  let cands := candidate_list Exp p 1 3 (-1) in
  List.length cands = 6%nat /\
  Forall (fun c => (0 <? weight c)%float = true) cands /\
  Generate Exp 0x1.fffffffffffffp-1%float (-1) p
    = Abort "Could not find another question" [].
Proof.
  intros H p cands.
  assert (Hs : shaped p 1 3) by (split; [reflexivity|vm_compute; discriminate]).
  assert (Hc : cands =
    [mkQuery 0 [0; 1] (1 - 0x1.8p-51)%float; mkQuery 0 [0; 2] (1 - 0x1p-51)%float;
     mkQuery 0 [1; 0] (1 - 0x1.8p-51)%float; mkQuery 0 [1; 2] (1 - 0x1p-52)%float;
     mkQuery 0 [2; 0] (1 - 0x1p-51)%float; mkQuery 0 [2; 1] (1 - 0x1p-52)%float]).
  { transitivity
      [mkQuery 0 [0; 1] (Exp (- 0x1.8p-51)%float); mkQuery 0 [0; 2] (Exp (- 0x1p-51)%float);
       mkQuery 0 [1; 0] (Exp (- 0x1.8p-51)%float); mkQuery 0 [1; 2] (Exp (- 0x1p-52)%float);
       mkQuery 0 [2; 0] (Exp (- 0x1p-51)%float); mkQuery 0 [2; 1] (Exp (- 0x1p-52)%float)].
    - vm_compute. reflexivity.
    - rewrite !H by (vm_compute; reflexivity). vm_compute. reflexivity. }
  rewrite (Generate_run Exp p 1 3 Hs). cbv zeta. fold cands. rewrite Hc.
  split; [reflexivity|]. split.
  - repeat constructor.
  - vm_compute. reflexivity.
Qed.

Lemma Generate_panics_with_candidates_witness :
  let p := engine_of 1 3 [0%float; 0x1.8p-51%float; 0x1p-51%float] in
  Generate Exp_near_zero 0x1.fffffffffffffp-1%float (-1) p
    = Abort "Could not find another question" [].
Proof.
  exact (proj2 (proj2 (Generate_panics_with_candidates Exp_near_zero
           (fun x _ => eq_refl)))).
Defined.

(** C8. Every query [Generate] returns on a [users] x [items] engine is a
    candidate of its filter: two distinct items, both in [0, items), a user in
    [0, users), and the user [user] itself when [user] is not negative. *)
Theorem Generate_returns_candidate Exp p users items variate user q p' d :
  shaped p users items ->
  Generate Exp variate user p = Done q p' d ->
  exists a b, Choices q = [a; b] /\ a <> b /\
    0 <= a < items /\ 0 <= b < items /\ 0 <= User q < users /\
    (0 <= user -> User q = user).
Proof.
  intros Hs. rewrite (Generate_run Exp p users items Hs). cbv zeta.
  destruct (walk _ _) as [c|] eqn:E; [|discriminate].
  intros H. injection H as <- _ _.
  apply walk_Some in E. destruct E as [Hin _].
  pose proof (candidate_list_candidates Exp p users items user) as Hc.
  rewrite Forall_forall in Hc.
  apply (ordered_candidate p), Hc, Hin.
Qed.

Lemma Generate_returns_candidate_witness :
  shaped (NewEngine 2 2) 2 2 /\
  Generate Exp_near_zero 0.5%float 1 (NewEngine 2 2)
    = Done (mkQuery 1 [1; 0] 1%float) (NewEngine 2 2) [] /\
  exists a b, [1; 0] = [a; b] /\ a <> b /\
    0 <= a < 2 /\ 0 <= b < 2 /\ 0 <= 1 < 2 /\ (0 <= 1 -> 1 = 1).
Proof.
  assert (Hs : shaped (NewEngine 2 2) 2 2)
    by (split; [reflexivity|vm_compute; discriminate]).
  assert (Hg : Generate Exp_near_zero 0.5%float 1 (NewEngine 2 2)
               = Done (mkQuery 1 [1; 0] 1%float) (NewEngine 2 2) [])
    by (vm_compute; reflexivity).
  split; [exact Hs|]. split; [exact Hg|].
  exact (Generate_returns_candidate Exp_near_zero (NewEngine 2 2) 2 2
           0.5%float 1 (mkQuery 1 [1; 0] 1%float) (NewEngine 2 2) [] Hs Hg).
Defined.

(** C9. Calls to [Generate], however many and with whatever variates and
    filters, leave the engine exactly as it was: every matrix, the history
    and every hyperparameter. *)
Theorem Generate_leaves_engine Exp calls p :
  match Generates Exp calls p with
  | Done _ p' _ => p' = p
  | Abort _ _ => True
  end.
Proof.
  assert (H : reads (Generates Exp calls)).
  { unfold Generates. apply reads_for_range. intros call qs.
    apply reads_bind; [apply reads_Generate|]. intros q. apply reads_ret. }
  specialize (H p). destruct (Generates Exp calls p); tauto.
Qed.

(** * What holds of the update and of the gradient *)

Lemma restores_zero : restores 0%float.
Proof. vm_compute. reflexivity. Qed.

Lemma NewEngine_exact_shape users items :
  0 <= users -> 0 <= items -> exact_shape (NewEngine users items) users items.
Proof.
  intros Hu Hi. repeat split; auto. unfold len. simpl. rewrite repeat_length. nia.
Qed.

Lemma NewEngine_restores users items :
  Forall restores (Data (X (NewEngine users items))).
Proof.
  simpl. generalize (Z.to_nat (users * (items * 1))). intros n.
  induction n; simpl; constructor; auto using restores_zero.
Qed.



(** X2. The batch loss. On a shaped engine and a batch of valid comparisons
    [hingeLoss] returns the mean of [max(0, 1 - (Current[u][a] -
    Current[u][b]))] over the batch, leaves the engine as it was and divides
    once, by the length of the batch. *)
Theorem hingeLoss_is_mean_hinge p users items samps :
  shaped p users items -> Forall (valid users items) samps ->
  hingeLoss samps p = Done (mean_hinge p samps) p [len samps].
Proof. apply hingeLoss_run. Qed.

Lemma hingeLoss_is_mean_hinge_witness :
  let p := engine_of 1 2 [0.5%float; 0.25%float] in
  hingeLoss [mkQuery 0 [0; 1] 0%float; mkQuery 0 [1; 0] 0%float] p
  = Done 1%float p [2].
Proof.
  intros p.
  refine (hingeLoss_is_mean_hinge p 1 2
            [mkQuery 0 [0; 1] 0%float; mkQuery 0 [1; 0] 0%float] _ _).
  - split; [reflexivity|vm_compute; discriminate].
  - repeat constructor; simpl; lia.
Defined.

(** X3. The gradient, when every cell of [Current] is a value that adding
    [epsilon] and subtracting it gives back (as 0 is): [gradientLoss] leaves
    the engine as it was, and the component of every cell is the finite
    difference of the loss in that single cell. *)
Theorem gradientLoss_restoring_cells p users items samps :
  exact_shape p users items -> Forall (valid users items) samps ->
  Forall restores (Data (X p)) ->
  exists G d,
    gradientLoss samps p = Done G p d /\
    Shape G = Shape (X p) /\
    List.length (Data G) = List.length (Data (X p)) /\
    forall k, (k < List.length (Data (X p)))%nat ->
      nth_error (Data G) k = finite_difference samps p k.
Proof.
  intros He Hv Hr. eexists _, _.
  split; [apply (gradientLoss_run p users items); auto|].
  cbn [Shape Data]. split; [reflexivity|].
  split; [now rewrite length_map, length_seq|].
  intros k Hk. rewrite (finite_difference_run p users items samps k); auto.
  - rewrite nth_error_map, nth_error_seq.
    destruct (Nat.ltb_spec k (List.length (Data (X p)))); [reflexivity|lia].
  - now apply exact_shape_shaped.
Qed.

Lemma gradientLoss_restoring_cells_witness :
  let p := NewEngine 1 2 in
  let samps := [mkQuery 0 [0; 1] 0%float] in
  exists G d,
    gradientLoss samps p = Done G p d /\
    Shape G = Shape (X p) /\
    List.length (Data G) = List.length (Data (X p)) /\
    forall k, (k < List.length (Data (X p)))%nat ->
      nth_error (Data G) k = finite_difference samps p k.
Proof.
  intros p samps.
  refine (gradientLoss_restoring_cells p 1 2 samps _ _ _).
  - apply NewEngine_exact_shape; lia.
  - repeat constructor; simpl; lia.
  - apply NewEngine_restores.
Defined.



(** X5. A successful [Respond] appends the comparison to the history, once. *)
Theorem Respond_appends_once (gauss : Gauss) p users items prompt p' d :
  Shape (X p) = [users; items] ->
  Respond gauss prompt p = Done None p' d ->
  History p' = History p ++ [prompt].
Proof.
  intros Hs. rewrite (Respond_run gauss p users items prompt Hs).
  destruct (negb _); [discriminate|]. destruct (_ || _); [discriminate|].
  destruct (bad_choice _ _); [discriminate|].
  intros H. apply bind_inv in H. destruct H as ([] & p1 & d1 & d2 & Hu & Hr & _).
  injection Hr as <- _.
  destruct (gradientLoss (History p ++ [prompt])
              (set_History (History p ++ [prompt]) p)) as [G p2 dg|msg dg] eqn:Eg.
  - rewrite (update_run gauss _ _ _ _ _ Eg) in Hu. injection Hu as <- _.
    now rewrite History_proximal_step.
  - rewrite (update_abort gauss _ _ _ _ Eg) in Hu. discriminate.
Qed.

Lemma Respond_appends_once_witness :
  let p := NewEngine 1 1 in
  let prompt := mkQuery 0 [0; 0] 0%float in
  History (proximal_step OneCell (set_History [prompt] p)
             (mkArray [0%float] [1; 1]) (X p)) = History p ++ [prompt].
Proof.
  intros p prompt.
  refine (Respond_appends_once OneCell p 1 1 prompt _ [1; 1] eq_refl _).
  vm_compute. reflexivity.
Defined.

(** X6. Without candidates [Generate] panics: no user, fewer than two items,
    or a filter that names no user of the engine. *)
Theorem Generate_panics_without_candidates Exp p users items variate user :
  shaped p users items ->
  users <= 0 \/ items <= 1 \/ users <= user ->
  Generate Exp variate user p = Abort "Could not find another question" [].
Proof.
  intros Hs Hc. rewrite (Generate_run Exp p users items Hs). cbv zeta.
  now rewrite (candidate_list_nil Exp p users items user Hc).
Qed.

Lemma Generate_panics_without_candidates_witness :
  Generate Exp_near_zero 0.5%float (-1) (NewEngine 3 1)
  = Abort "Could not find another question" [].
Proof.
  refine (Generate_panics_without_candidates Exp_near_zero (NewEngine 3 1) 3 1
            0.5%float (-1) _ _).
  - split; [reflexivity|vm_compute; discriminate].
  - right. left. lia.
Defined.

(** * More of the engine *)

(** ** The gradient on any cells *)

(** The loop of [gradientLoss] over the cells that are still to do, whatever
    they hold: every cell is left at its restored value, and the result
    holds, cell by cell, the difference the loop measured. *)
Lemma gradient_loop_any p users items samps before :
  shaped p users items -> Forall (valid users items) samps ->
  forall post pre done,
  List.length (pre ++ post) = List.length (Data (X p)) ->
  List.length done = List.length pre ->
  for_range (seq (List.length pre) (List.length post)) (fun i data =>
      a <- gets X ;;
      xi <- index (nth_error (Data a) i) ;;
      X_Data_store i (xi + epsilon)%float ;;;
      after <- hingeLoss samps ;;
      data' <- index (store data i ((after - before) / epsilon)%float) ;;
      a' <- gets X ;;
      xi' <- index (nth_error (Data a') i) ;;
      X_Data_store i (xi' - epsilon)%float ;;;
      ret data') (done ++ repeat 0%float (List.length post))
    (with_cells p (pre ++ post))
  = Done (done ++ differences samps p before pre post)
         (with_cells p (pre ++ map restored post))
         (map (fun _ => len samps) post).
Proof.
  intros Hs Hv. induction post as [|x post IH]; intros pre done Hlen Hl.
  - reflexivity.
  - cbn [List.length seq repeat for_range map differences].
    set (v := ((mean_hinge (with_cells p (pre ++ (x + epsilon)%float :: post)) samps
                - before) / epsilon)%float).
    assert (Hlen' : List.length (pre ++ (x + epsilon)%float :: post)
                    = List.length (Data (X p))).
    { rewrite <- Hlen, !length_app. reflexivity. }
    pose proof (shaped_with_cells p users items _ Hs Hlen') as Hs'.
    rewrite bind_Done with (a := done ++ v :: repeat 0%float (List.length post))
                           (p' := with_cells p (pre ++ restored x :: post))
                           (d := [len samps]).
    + assert (E1 : List.length (pre ++ [x]) = S (List.length pre))
        by (rewrite length_app; simpl; lia).
      assert (E2 : List.length (pre ++ [restored x]) = S (List.length pre))
        by (rewrite length_app; simpl; lia).
      specialize (IH (pre ++ [restored x]) (done ++ [v])).
      rewrite E2, <- !app_assoc in IH. cbn [app] in IH.
      rewrite IH; [reflexivity| |].
      * rewrite <- Hlen, !length_app. simpl. lia.
      * rewrite length_app. simpl. lia.
    + rewrite bind_gets. cbn [with_cells set_X X Data].
      rewrite nth_error_middle. cbn [index]. rewrite bind_ret.
      rewrite (bind_Done _ _ _ _ _ _
        (X_Data_store_run (with_cells p (pre ++ x :: post)) pre x post _ eq_refl)).
      change (with_cells (with_cells p ?c1) ?c2) with (with_cells p c2).
      rewrite (bind_Done _ _ _ _ _ _ (hingeLoss_run _ users items samps Hs' Hv)).
      rewrite <- Hl, store_app. cbn [index]. rewrite bind_ret, bind_gets.
      cbn [with_cells set_X X Data]. rewrite Hl, nth_error_middle. cbn [index].
      rewrite bind_ret.
      rewrite (bind_Done _ _ _ _ _ _
        (X_Data_store_run (with_cells p (pre ++ (x + epsilon)%float :: post))
           pre _ post _ eq_refl)).
      change (with_cells (with_cells p ?c1) ?c2) with (with_cells p c2).
      reflexivity.
Qed.

(** [gradientLoss] in one equation on a [users] x [items] engine and a batch
    of comparisons that passed the checks. *)
Lemma gradientLoss_any p users items samps :
  exact_shape p users items -> Forall (valid users items) samps ->
  gradientLoss samps p =
  Done (mkArray (differences samps p (mean_hinge p samps) [] (Data (X p)))
                (Shape (X p)))
       (with_cells p (map restored (Data (X p))))
       (len samps :: map (fun _ => len samps) (Data (X p))).
Proof.
  intros He Hv. pose proof (exact_shape_shaped p users items He) as Hs.
  destruct He as (Hsh & Hl & Hu & Hi).
  unfold gradientLoss. rewrite bind_gets.
  rewrite (bind_Done _ _ _ _ _ _ (hingeLoss_run p users items samps Hs Hv)).
  assert (Hz : Data (Zero (Shape (X p)))
               = repeat 0%float (List.length (Data (X p)))).
  { rewrite Hsh. unfold Zero. cbn [Data fold_right]. f_equal. unfold len in Hl. nia. }
  rewrite Hz, repeat_length.
  pose proof (gradient_loop_any p users items samps (mean_hinge p samps) Hs Hv
                (Data (X p)) [] [] eq_refl eq_refl) as Hloop.
  cbn [app List.length] in Hloop. rewrite with_cells_self in Hloop.
  rewrite (bind_Done _ _ _ _ _ _ Hloop).
  simpl. now rewrite app_nil_r.
Qed.

Lemma differences_length samps p before post : forall pre,
  List.length (differences samps p before pre post) = List.length post.
Proof.
  induction post as [|x post IH]; intros pre; simpl; [reflexivity|].
  now rewrite IH.
Qed.

Lemma differences_nth samps p before l2 x : forall l1 pre,
  nth_error (differences samps p before pre (l1 ++ x :: l2)) (List.length l1)
  = Some ((mean_hinge (with_cells p (pre ++ map restored l1
                                         ++ (x + epsilon)%float :: l2)) samps
           - before) / epsilon)%float.
Proof.
  induction l1 as [|y l1 IH]; intros pre; simpl.
  - reflexivity.
  - rewrite IH, <- app_assoc. reflexivity.
Qed.

(** ** Sessions *)

Lemma validb_valid users items prompt :
  validb users items prompt = true <-> valid users items prompt.
Proof.
  unfold validb, valid. rewrite !andb_true_iff, forallb_forall, Forall_forall.
  split.
  - intros [[[Hl Hu] Hu'] Hc]. repeat split; try lia.
    + specialize (Hc x H). lia.
    + specialize (Hc x H). lia.
  - intros (Hl & Hu & Hc). repeat split; try lia.
    intros c Hin. specialize (Hc c Hin). lia.
Qed.

Lemma validb_Respond_run gauss p users items prompt :
  Shape (X p) = [users; items] ->
  Respond gauss prompt p =
  if validb users items prompt
  then (update gauss (History p ++ [prompt]) ;;; ret None)
         (set_History (History p ++ [prompt]) p)
  else Done (Some (if negb (len (Choices prompt) =? 2) then ErrBinary
                   else if (User prompt <? 0) || (User prompt >=? users)
                   then ErrUser (User prompt) users
                   else match bad_choice items (Choices prompt) with
                        | Some c => ErrChoice c items
                        | None => ErrBinary
                        end)) p [].
Proof.
  intros Hs. rewrite (Respond_run gauss p users items prompt Hs).
  destruct (validb users items prompt) eqn:Ev.
  - apply validb_valid in Ev. destruct Ev as (Hl & Hu & Hc).
    rewrite Hl. simpl.
    replace ((User prompt <? 0) || (User prompt >=? users)) with false
      by (symmetry; apply orb_false_iff; split; lia).
    apply bad_choice_None in Hc. now rewrite Hc.
  - destruct (negb (len (Choices prompt) =? 2)) eqn:El; [reflexivity|].
    destruct ((User prompt <? 0) || (User prompt >=? users)) eqn:Eu; [reflexivity|].
    destruct (bad_choice items (Choices prompt)) as [c|] eqn:Ec; [reflexivity|].
    exfalso. apply bad_choice_None in Ec.
    assert (Hv : valid users items prompt).
    { apply negb_false_iff in El. apply orb_false_iff in Eu.
      repeat split; try lia. exact Ec. }
    apply validb_valid in Hv. congruence.
Qed.

Lemma matrix_Zero users items :
  0 <= users -> 0 <= items -> matrix users items (Zero [users; items]).
Proof.
  intros Hu Hi. split; [reflexivity|]. unfold len. simpl. rewrite repeat_length. nia.
Qed.

Lemma NewEngine_well_formed users items :
  0 <= users -> 0 <= items -> well_formed users items (NewEngine users items).
Proof.
  intros Hu Hi. split; [now apply NewEngine_exact_shape|].
  split; [now apply matrix_Zero|]. split; [now apply matrix_Zero|]. constructor.
Qed.

(** The step of an accepted [Respond] keeps the engine well formed. *)
Lemma proximal_step_well_formed gauss users items p G cells :
  keeps_shape gauss users items ->
  well_formed users items p -> matrix users items G ->
  List.length cells = List.length (Data (X p)) ->
  well_formed users items
    (proximal_step gauss p G (mkArray cells (Shape (X p)))).
Proof.
  intros (Hsum & Hscale & Hsvd) ((Hsh & Hl & Hu & Hi) & Hxp & Hz & Hh) HG Hc.
  assert (Hm : matrix users items
                 (gauss_Sum gauss (Z' p) (gauss_Scale gauss G (- Nu p)%float)))
    by auto.
  assert (Hprev : matrix users items (mkArray cells (Shape (X p)))).
  { split; [exact Hsh|]. unfold len in *. simpl. lia. }
  specialize (Hsvd _ (soft_threshold (Lambda p)
    (Data (snd (fst (gauss_SVD gauss
       (gauss_Sum gauss (Z' p) (gauss_Scale gauss G (- Nu p)%float)))))))
    Hm (length_map _ _)).
  unfold proximal_step.
  destruct (gauss_SVD gauss _) as [[U S'] V]. cbn [fst snd] in Hsvd.
  repeat split; cbn [X Xp Z' History]; try apply Hsvd; try apply Hprev; auto.
  all: apply Hsum; auto.
Qed.

(** One call: [Respond] returns, with an error exactly for a comparison that
    fails a check, and the engine stays well formed. *)
Lemma Respond_well_formed gauss users items p prompt :
  keeps_shape gauss users items -> well_formed users items p ->
  exists r p' d,
    Respond gauss prompt p = Done r p' d /\
    (r = None <-> valid users items prompt) /\
    well_formed users items p' /\
    History p' = History p ++ filter (validb users items) [prompt].
Proof.
  intros Hk Hw. pose proof Hw as (He & Hxp & Hz & Hh).
  rewrite (validb_Respond_run gauss p users items prompt (proj1 He)).
  cbn [filter]. destruct (validb users items prompt) eqn:Ev.
  - apply validb_valid in Ev.
    set (appended := set_History (History p ++ [prompt]) p).
    assert (Hv' : Forall (valid users items) (History p ++ [prompt])).
    { apply Forall_app. split; [exact Hh|]. constructor; [exact Ev|constructor]. }
    assert (He' : exact_shape appended users items) by exact He.
    pose proof (gradientLoss_any appended users items _ He' Hv') as Hg.
    rewrite (bind_Done _ _ _ _ _ _ (update_run gauss _ _ _ _ _ Hg)).
    cbn [ret]. eexists _, _, _. split; [reflexivity|]. split; [tauto|].
    split.
    + apply (proximal_step_well_formed gauss users items appended); auto.
      * split; [exact He'|]. split; [exact Hxp|]. split; [exact Hz|exact Hv'].
      * destruct He as (Hsh & Hl & _). split; [exact Hsh|].
        unfold len in *. cbn [Data]. rewrite differences_length. exact Hl.
      * cbn [with_cells set_X X Data]. apply length_map.
    + now rewrite History_proximal_step.
  - eexists _, p, _. split; [reflexivity|]. split.
    + split; [discriminate|]. intros Hv. apply validb_valid in Hv. congruence.
    + split; [exact Hw|]. now rewrite app_nil_r.
Qed.

(** A run of calls. *)
Lemma Responds_well_formed gauss users items :
  keeps_shape gauss users items ->
  forall prompts p errs0, well_formed users items p ->
  exists errs p' d,
    for_range prompts (fun prompt errs =>
        e <- Respond gauss prompt ;; ret (errs ++ [e])) errs0 p
      = Done (errs0 ++ errs) p' d /\
    Forall2 (fun prompt e => e = None <-> valid users items prompt) prompts errs /\
    well_formed users items p' /\
    History p' = History p ++ filter (validb users items) prompts.
Proof.
  intros Hk. induction prompts as [|prompt prompts IH]; intros p errs0 Hw.
  - exists [], p, []. cbn [for_range filter]. rewrite !app_nil_r.
    split; [reflexivity|]. split; [constructor|]. split; [exact Hw|reflexivity].
  - destruct (Respond_well_formed gauss users items p prompt Hk Hw)
      as (r & p1 & d1 & Hr & Hv & Hw1 & Hh1).
    destruct (IH p1 (errs0 ++ [r]) Hw1) as (errs & p' & d & Hrun & Hf & Hw' & Hh').
    exists (r :: errs), p', (d1 ++ d). cbn [for_range].
    rewrite bind_Done with (a := errs0 ++ [r]) (p' := p1) (d := d1).
    + rewrite Hrun, <- app_assoc. split; [reflexivity|].
      split; [constructor; assumption|]. split; [exact Hw'|].
      rewrite Hh', Hh1, <- app_assoc. f_equal.
      cbn [filter]. destruct (validb users items prompt); reflexivity.
    + rewrite (bind_Done _ _ _ _ _ _ Hr). cbn [ret]. now rewrite app_nil_r.
Qed.

(** ** [Generate], then [Respond] *)

(** What [Generate] returns is a candidate, and the engine is as it was. *)
Lemma Generate_candidate Exp p users items variate user q p' d :
  shaped p users items ->
  Generate Exp variate user p = Done q p' d ->
  p' = p /\ d = [] /\ candidate users items user q.
Proof.
  intros Hs. rewrite (Generate_run Exp p users items Hs). cbv zeta.
  destruct (walk _ _) as [c|] eqn:E; [|discriminate].
  intros H. injection H as <- <- <-. split; [reflexivity|]. split; [reflexivity|].
  apply walk_Some in E. destruct E as [Hin _].
  pose proof (candidate_list_candidates Exp p users items user) as Hc.
  rewrite Forall_forall in Hc. apply (ordered_candidate p), Hc, Hin.
Qed.

(** [Generate] returns or panics for want of a question, nothing else. *)
Lemma Generate_Abort Exp p users items variate user msg d :
  shaped p users items ->
  Generate Exp variate user p = Abort msg d ->
  msg = "Could not find another question"%string /\ d = [].
Proof.
  intros Hs. rewrite (Generate_run Exp p users items Hs). cbv zeta.
  destruct (walk _ _); [discriminate|]. intros H. injection H as <- <-. auto.
Qed.

Lemma candidate_valid users items user q q' :
  candidate users items user q ->
  User q' = User q -> Permutation (Choices q) (Choices q') ->
  valid users items q'.
Proof.
  intros (a & b & Hc & Hab & Ha & Hb & Hu & _) Hu' Hp.
  unfold valid, len. rewrite <- (Permutation_length Hp), Hu', Hc.
  split; [reflexivity|]. split; [exact Hu|].
  apply (Permutation_Forall Hp). rewrite Hc.
  constructor; [exact Ha|]. constructor; [exact Hb|constructor].
Qed.

(** [Respond] in one equation on a well-shaped engine, a history and a
    comparison that passed the checks. *)
Lemma Respond_any gauss p users items prompt :
  exact_shape p users items ->
  Forall (valid users items) (History p) -> valid users items prompt ->
  let history := History p ++ [prompt] in
  let appended := set_History history p in
  Respond gauss prompt p =
  Done None
    (proximal_step gauss appended
       (mkArray (differences history appended (mean_hinge appended history) []
                   (Data (X p))) (Shape (X p)))
       (mkArray (map restored (Data (X p))) (Shape (X p))))
    (len history :: map (fun _ => len history) (Data (X p))).
Proof.
  intros He Hh Hv history appended.
  assert (He' : exact_shape appended users items) by exact He.
  assert (Hv' : Forall (valid users items) history).
  { apply Forall_app. split; [exact Hh|]. constructor; [exact Hv|constructor]. }
  pose proof (gradientLoss_any appended users items history He' Hv') as Hg.
  exact (Respond_accepts gauss p users items prompt _ _ _ (proj1 He) Hv Hg).
Qed.

(** ** The loop of [TestConvergence] *)

(** One turn on a well-formed engine: the engine is given one valid answer,
    in ascending order, or [Generate] panics for want of a question. *)
Lemma TestConvergence_turn_run Exp gauss users items p variate incorrect :
  keeps_shape gauss users items -> well_formed users items p ->
  match TestConvergence_turn Exp gauss variate incorrect p with
  | Done r p' d =>
      exists q incorrect',
        r = inr incorrect' /\ incorrect <= incorrect' <= incorrect + 1 /\
        ascending q /\ valid users items q /\
        History p' = History p ++ [q] /\ well_formed users items p'
  | Abort msg d => msg = "Could not find another question"%string
  end.
Proof.
  intros Hk Hw. pose proof Hw as (He & _).
  pose proof (exact_shape_shaped p users items He) as Hs.
  unfold TestConvergence_turn.
  destruct (Generate Exp variate (-1) p) as [q p1 d1|msg d1] eqn:Eg.
  2:{ rewrite (bind_Abort _ _ _ _ _ Eg).
      now destruct (Generate_Abort Exp p users items _ _ _ _ Hs Eg). }
  destruct (Generate_candidate Exp p users items _ _ _ _ _ Hs Eg)
    as (-> & -> & Hc).
  rewrite (bind_quiet _ _ _ _ Eg).
  pose proof Hc as (a & b & Hch & Hab & Ha & Hb & Hu & _).
  rewrite Hch. cbn [nth_error index]. rewrite !bind_ret.
  destruct (Z.eqb_spec a b) as [|_]; [contradiction|].
  rewrite !bind_ret.
  assert (Hstep : forall q' inc',
    valid users items q' ->
    match (Respond gauss q' ;;; ret (@inr failure Z inc')) p with
    | Done r p' d =>
        r = inr inc' /\ History p' = History p ++ [q'] /\ well_formed users items p'
    | Abort _ _ => False
    end).
  { intros q' inc' Hv.
    destruct (Respond_well_formed gauss users items p q' Hk Hw)
      as (r & p' & d & Hr & _ & Hw' & Hh).
    rewrite (bind_Done _ _ _ _ _ _ Hr). cbn [ret].
    apply validb_valid in Hv. cbn [filter] in Hh. rewrite Hv in Hh. auto. }
  destruct (Z.geb_spec a b) as [Hge|Hlt].
  - unfold swap_Choices. rewrite Hch. cbn [nth_error index skipn].
    set (q' := mkQuery (User q) [b; a] (weight q)).
    rewrite bind_quiet with (a := (q', incorrect + 1)) by reflexivity.
    assert (Hv : valid users items q').
    { apply (candidate_valid users items (-1) q q' Hc eq_refl).
      rewrite Hch. apply perm_swap. }
    specialize (Hstep q' (incorrect + 1) Hv).
    destruct (bind _ _ p) as [r p' d|]; [|contradiction].
    destruct Hstep as (-> & Hh & Hw').
    exists q', (incorrect + 1). repeat split; auto; try lia; try apply Hv; try apply Hw'.
    exists b, a. split; [reflexivity|lia].
  - assert (Hv : valid users items q).
    { apply (candidate_valid users items (-1) q q Hc eq_refl). reflexivity. }
    specialize (Hstep q incorrect Hv). rewrite bind_ret.
    destruct (bind _ _ p) as [r p' d|]; [|contradiction].
    destruct Hstep as (-> & Hh & Hw').
    exists q, incorrect. repeat split; auto; try lia; try apply Hv; try apply Hw'.
    exists a, b. split; [exact Hch|lia].
Qed.

Lemma TestConvergence_loop_run Exp gauss users items :
  keeps_shape gauss users items ->
  forall variates p incorrect, well_formed users items p ->
  match for_return variates (TestConvergence_turn Exp gauss) incorrect p with
  | Done r p' d =>
      exists answers incorrect',
        r = inr incorrect' /\
        incorrect <= incorrect' <= incorrect + len variates /\
        History p' = History p ++ answers /\
        List.length answers = List.length variates /\
        Forall ascending answers /\ Forall (valid users items) answers /\
        well_formed users items p'
  | Abort msg d => msg = "Could not find another question"%string
  end.
Proof.
  intros Hk. induction variates as [|v variates IH]; intros p incorrect Hw.
  - cbn [for_return ret]. exists [], incorrect.
    split; [reflexivity|]. split; [unfold len; simpl; lia|].
    split; [now rewrite app_nil_r|]. split; [reflexivity|].
    split; [constructor|]. split; [constructor|exact Hw].
  - cbn [for_return].
    pose proof (TestConvergence_turn_run Exp gauss users items p v incorrect Hk Hw)
      as Ht.
    unfold bind at 1.
    destruct (TestConvergence_turn Exp gauss v incorrect p) as [r p1 d1|msg d1];
      [|exact Ht].
    destruct Ht as (q & inc1 & -> & Hi & Ha & Hv & Hh & Hw1).
    specialize (IH p1 inc1 Hw1).
    destruct (for_return variates _ inc1 p1) as [r p' d|msg d]; [|exact IH].
    destruct IH as (answers & inc' & -> & Hi' & Hh' & Hl & Has & Hvs & Hw').
    exists (q :: answers), inc'.
    split; [reflexivity|]. split; [unfold len in *; cbn [List.length]; lia|].
    split; [rewrite Hh', Hh, <- app_assoc; reflexivity|].
    split; [simpl; lia|].
    split; [constructor; assumption|]. split; [constructor; assumption|exact Hw'].
Qed.

(** ** The stand-ins keep the shape *)

Lemma matrix_1_1 a : matrix 1 1 a -> exists x, a = mkArray [x] [1; 1].
Proof.
  destruct a as [d s]. intros [Hs Hl]. simpl in Hs. subst s. unfold len in Hl.
  simpl in Hl. destruct d as [|x [|y d]]; simpl in Hl; try lia. now exists x.
Qed.

Lemma matrix_1_2 a : matrix 1 2 a -> exists x y, a = mkArray [x; y] [1; 2].
Proof.
  destruct a as [d s]. intros [Hs Hl]. simpl in Hs. subst s. unfold len in Hl.
  simpl in Hl. destruct d as [|x [|y [|z d]]]; simpl in Hl; try lia. now exists x, y.
Qed.

Lemma OneCell_keeps_shape : keeps_shape OneCell 1 1.
Proof.
  split; [|split].
  - intros a b Ha Hb. apply matrix_1_1 in Ha, Hb.
    destruct Ha as [x ->], Hb as [y ->]. split; reflexivity.
  - intros a k Ha. apply matrix_1_1 in Ha. destruct Ha as [x ->]. split; reflexivity.
  - intros m s Hm Hl. apply matrix_1_1 in Hm. destruct Hm as [x ->].
    simpl in Hl. destruct s as [|s0 [|s1 s]]; simpl in Hl; try lia.
    split; reflexivity.
Qed.

Lemma OneRow_keeps_shape : keeps_shape OneRow 1 2.
Proof.
  split; [|split].
  - intros a b Ha Hb. apply matrix_1_2 in Ha, Hb.
    destruct Ha as (x & y & ->), Hb as (x' & y' & ->). split; reflexivity.
  - intros a k Ha. apply matrix_1_2 in Ha. destruct Ha as (x & y & ->).
    split; reflexivity.
  - intros m s Hm Hl. apply matrix_1_2 in Hm. destruct Hm as (x & y & ->).
    simpl in Hl. destruct s as [|s0 [|s1 s]]; simpl in Hl; try lia.
    split; [reflexivity|]. cbn. destruct (_ =? _)%float; reflexivity.
Qed.

(** ** binary64: signs *)

Module Sign.

(** Rounding gives the magnitude the sign it is told. *)
Lemma binary_round_aux_unsigned mx ex lx :
  SF_unsigned (binary_round_aux prec emax false mx ex lx) = true.
Proof.
  unfold binary_round_aux.
  destruct (shr_fexp _ _ _ _ _) as [mrs' e'].
  destruct (shr_fexp _ _ _ _ _) as [mrs'' e''].
  destruct (shr_m mrs''); [reflexivity| |reflexivity].
  destruct (Z.leb _ _); reflexivity.
Qed.

Lemma SFabs_binary_round_aux sx mx ex lx :
  SFabs (binary_round_aux prec emax sx mx ex lx)
  = SFabs (binary_round_aux prec emax false mx ex lx).
Proof.
  unfold binary_round_aux.
  destruct (shr_fexp _ _ _ _ _) as [mrs' e'].
  destruct (shr_fexp _ _ _ _ _) as [mrs'' e''].
  destruct (shr_m mrs''); [reflexivity| |reflexivity].
  destruct (Z.leb _ _); reflexivity.
Qed.

Lemma SFabs_binary_normalize m e s s' :
  SFabs (binary_normalize prec emax (- m) e s)
  = SFabs (binary_normalize prec emax m e s').
Proof.
  destruct m as [|m|m]; simpl; [reflexivity| |]; unfold binary_round;
    destruct (shl_align _ _ _) as [mz ez];
    rewrite (SFabs_binary_round_aux true); reflexivity.
Qed.

Lemma unsigned_not_negative x : SF_unsigned x = true -> SF_not_negative x = true.
Proof. destruct x as [[]|[]| |[] ? ?]; simpl; congruence. Qed.

Lemma not_negative_spec x :
  not_negative x <-> SF_not_negative (Prim2SF x) = true.
Proof.
  unfold not_negative. rewrite ltb_spec.
  change (Prim2SF 0) with (S754_zero false). unfold SFltb.
  destruct (Prim2SF x) as [[]|[]| |[] ? ?]; simpl; split; congruence.
Qed.

Lemma SFadd_not_negative x y :
  SF_not_negative x = true -> SF_not_negative y = true ->
  SF_not_negative (SFadd prec emax x y) = true.
Proof.
  destruct x as [[]|[]| |[] mx ex], y as [[]|[]| |[] my ey]; simpl;
    try congruence; try reflexivity.
  intros _ _. unfold binary_round.
  destruct (shl_align _ _ _) as [mz ez].
  apply unsigned_not_negative, binary_round_aux_unsigned.
Qed.

Lemma SFdiv_not_negative x y :
  SF_not_negative x = true -> SF_unsigned y = true ->
  SF_not_negative (SFdiv prec emax x y) = true.
Proof.
  destruct x as [[]|[]| |[] mx ex], y as [[]|[]| |[] my ey]; simpl;
    try congruence; try reflexivity.
  intros _ _. destruct (SFdiv_core_binary _ _ _ _ _ _) as [[mz ez] lz].
  apply unsigned_not_negative, binary_round_aux_unsigned.
Qed.

(** The sum of two values that are not negative is not negative. *)
Lemma add_not_negative x y :
  not_negative x -> not_negative y -> not_negative (x + y)%float.
Proof.
  rewrite !not_negative_spec, add_spec. apply SFadd_not_negative.
Qed.

(** [float64(n)] has no sign bit. *)
Lemma float64_of_int_unsigned n :
  SF_unsigned (Prim2SF (float64_of_int n)) = true.
Proof.
  unfold float64_of_int. rewrite of_uint63_spec.
  pose proof (Uint63.to_Z_bounded (Uint63.of_Z n)) as Hb.
  destruct (Uint63.to_Z (Uint63.of_Z n)) as [|m|m]; simpl; [reflexivity| |lia].
  unfold binary_round. destruct (shl_align _ _ _) as [mz ez].
  apply binary_round_aux_unsigned.
Qed.

Lemma div_not_negative x n :
  not_negative x -> not_negative (x / float64_of_int n)%float.
Proof.
  rewrite !not_negative_spec, div_spec. intros Hx.
  apply SFdiv_not_negative; [exact Hx|apply float64_of_int_unsigned].
Qed.

(** [math.Max(0, t)] is never negative. *)
Lemma math_Max_0_not_negative t : not_negative (math_Max 0 t).
Proof.
  unfold math_Max, not_negative.
  change (0 =? infinity)%float with false. simpl orb.
  destruct (t =? infinity)%float; [reflexivity|].
  change (is_nan 0) with false. simpl orb.
  destruct (is_nan t); [reflexivity|].
  change (0 =? 0)%float with true. simpl andb.
  destruct (0 =? t)%float; [reflexivity|].
  destruct (t <? 0)%float eqn:E; [reflexivity|exact E].
Qed.

(** The distance of two values does not depend on their order. *)
Lemma abs_sub_sym x y : abs (x - y) = abs (y - x).
Proof.
  apply Prim2SF_inj. rewrite !abs_spec, !sub_spec. unfold SF64sub.
  destruct (Prim2SF x) as [sx|sx| |sx mx ex], (Prim2SF y) as [sy|sy| |sy my ey];
    simpl; try reflexivity;
    try (destruct sx; reflexivity); try (destruct sy; reflexivity);
    try (destruct sx, sy; reflexivity).
  rewrite (Z.min_comm ey ex).
  set (A := cond_Zopp sx _). set (B := cond_Zopp sy _).
  replace (B - A) with (- (A - B)) by lia.
  symmetry. apply SFabs_binary_normalize.
Qed.

End Sign.

(** ** The loss on any engine *)

(** A property of the variables of a loop that every turn keeps holds when
    the loop returns. *)
Lemma for_range_invariant {A S} (P : S -> Prop) (body : A -> S -> M S) xs :
  (forall x s p s' p' d, P s -> body x s p = Done s' p' d -> P s') ->
  forall s p s' p' d, P s -> for_range xs body s p = Done s' p' d -> P s'.
Proof.
  intros Hb. induction xs as [|x xs IH]; intros s p s' p' d Hs; simpl.
  - intros H. injection H as <- _ _. exact Hs.
  - intros H. apply bind_inv in H.
    destruct H as (s1 & p1 & d1 & d2 & H1 & H2 & _).
    exact (IH _ _ _ _ _ (Hb _ _ _ _ _ _ Hs H1) H2).
Qed.

Lemma index_inv {A} (o : option A) p a p' d :
  index o p = Done a p' d -> o = Some a /\ p' = p /\ d = [].
Proof.
  destruct o as [a'|]; simpl; [|discriminate].
  intros H. injection H as <- <- <-. auto.
Qed.

Lemma X_at_inv u i p x p' d :
  X_at u i p = Done x p' d -> p' = p /\ d = [].
Proof.
  intros H. pose proof (reads_X_at u i p) as Hr. rewrite H in Hr. exact Hr.
Qed.

(** The sum [hingeLoss] forms is never negative. *)
Lemma hinge_sum_not_negative samps p sum p' d :
  for_range samps (fun x sum =>
      c0 <- index (nth_error (Choices x) 0) ;;
      c1 <- index (nth_error (Choices x) 1) ;;
      x0 <- X_at (User x) c0 ;;
      x1 <- X_at (User x) c1 ;;
      let diff := (x0 - x1)%float in
      ret (sum + math_Max (1 - diff) 0)%float) 0%float p = Done sum p' d ->
  not_negative sum.
Proof.
  apply for_range_invariant; [|reflexivity].
  clear. intros x s p s' p' d Hs H.
  apply bind_inv in H. destruct H as (c0 & p1 & d1 & d1' & _ & H & _).
  apply bind_inv in H. destruct H as (c1 & p2 & d2 & d2' & _ & H & _).
  apply bind_inv in H. destruct H as (x0 & p3 & d3 & d3' & _ & H & _).
  apply bind_inv in H. destruct H as (x1 & p4 & d4 & d4' & _ & H & _).
  cbv zeta in H. injection H as <- _ _.
  apply Sign.add_not_negative; [exact Hs|].
  rewrite Float64.math_Max_0_comm. apply Sign.math_Max_0_not_negative.
Qed.

(** A comparison with fewer than two items stops the loss at its index, after
    the comparisons before it and before any division. *)
Lemma hingeLoss_short p users items pre x post :
  shaped p users items -> Forall (valid users items) pre ->
  len (Choices x) < 2 ->
  hingeLoss (pre ++ x :: post) p = Abort "index out of range" [].
Proof.
  intros Hs Hv Hx. unfold hingeLoss. apply bind_Abort.
  enough (H : forall sum,
    for_range (pre ++ x :: post) (fun x sum =>
        c0 <- index (nth_error (Choices x) 0) ;;
        c1 <- index (nth_error (Choices x) 1) ;;
        x0 <- X_at (User x) c0 ;;
        x1 <- X_at (User x) c1 ;;
        let diff := (x0 - x1)%float in
        ret (sum + math_Max (1 - diff) 0)%float) sum p
    = Abort "index out of range" []) by apply H.
  induction pre as [|y pre IH]; intros sum.
  - cbn [app for_range]. apply bind_Abort.
    unfold len in Hx. destruct (Choices x) as [|a [|b l]]; simpl in Hx; try lia.
    + reflexivity.
    + reflexivity.
  - inversion Hv as [|? ? Hy Hv']; subst. cbn [app for_range].
    destruct Hy as (Hl & Hu & Hc). unfold len in Hl.
    destruct (Choices y) as [|a [|b [|c l]]] eqn:Ec; simpl in Hl; try lia.
    inversion Hc as [|? ? Ha Hc']; subst. inversion Hc' as [|? ? Hb _]; subst.
    rewrite bind_quiet
      with (a := (sum + math_Max (1 - (Current p (User y) a - Current p (User y) b)) 0)%float).
    + apply IH. exact Hv'.
    + simpl. rewrite !bind_ret.
      rewrite (bind_quiet _ _ _ _ (X_at_run p users items _ a Hs Hu Ha)).
      rewrite (bind_quiet _ _ _ _ (X_at_run p users items _ b Hs Hu Hb)).
      reflexivity.
Qed.

(** ** Counting the candidates *)

Lemma NoDup_upto n : NoDup (upto n).
Proof.
  unfold upto. generalize (seq_NoDup (Z.to_nat n) 0).
  generalize (seq 0 (Z.to_nat n)). intros l. induction 1 as [|x l Hx Hl IH]; simpl.
  - constructor.
  - constructor; [|exact IH]. rewrite in_map_iff. intros (y & Hy & Hin).
    apply Nat2Z.inj in Hy. subst. contradiction.
Qed.

Lemma length_upto n : List.length (upto n) = Z.to_nat n.
Proof. unfold upto. now rewrite length_map, length_seq. Qed.

(** A list from which one element is left out. *)
Lemma length_flat_map_but_one {B} (f : Z -> B) a l :
  NoDup l -> In a l ->
  S (List.length (flat_map (fun b => if a =? b then [] else [f b]) l))
  = List.length l.
Proof.
  induction 1 as [|b l Hb Hl IH]; intros Hin; [contradiction|]. simpl.
  destruct (Z.eqb_spec a b) as [->|Hab].
  - simpl. f_equal. clear IH Hin Hl. induction l as [|c l IH]; [reflexivity|].
    simpl. destruct (Z.eqb_spec b c) as [->|_].
    + exfalso. apply Hb. now left.
    + simpl. f_equal. apply IH. intros H. apply Hb. now right.
  - simpl. f_equal. apply IH. destruct Hin; [congruence|assumption].
Qed.

Lemma length_flat_map_constant {A B} (g : A -> list B) k l :
  (forall x, In x l -> List.length (g x) = k) ->
  List.length (flat_map g l) = (List.length l * k)%nat.
Proof.
  induction l as [|x l IH]; intros H; [reflexivity|]. simpl.
  rewrite length_app, IH, H; auto with datatypes.
Qed.

Lemma length_pairs_of Exp p items u :
  len (pairs_of Exp p items u) = Z.max 0 items * (Z.max 0 items - 1).
Proof.
  unfold len, pairs_of.
  rewrite (length_flat_map_constant _ (Nat.pred (Z.to_nat items))).
  - rewrite length_upto. destruct (Z.to_nat items) eqn:E; simpl; lia.
  - intros a Ha.
    pose proof (length_flat_map_but_one
                  (fun b => mkQuery u [a; b] (weight_of Exp p u a b)) a
                  (upto items) (NoDup_upto items) Ha) as H.
    rewrite length_upto in H. lia.
Qed.

Lemma length_candidate_list Exp p users items user :
  len (candidate_list Exp p users items user)
  = (if user <? 0 then Z.max 0 users else if user <? users then 1 else 0)
    * (Z.max 0 items * (Z.max 0 items - 1)).
Proof.
  unfold candidate_list. set (k := Z.max 0 items * (Z.max 0 items - 1)).
  destruct (Z.ltb_spec user 0) as [Hneg|Hpos].
  - unfold len.
    rewrite (length_flat_map_constant _ (Z.to_nat k)).
    + rewrite length_upto. subst k. nia.
    + intros u _. replace (user >=? 0) with false by (symmetry; lia). simpl.
      pose proof (length_pairs_of Exp p items u) as H. unfold len in H. fold k in H. lia.
  - replace (user >=? 0) with true by (symmetry; lia). cbn [andb].
    assert (H : forall l, NoDup l ->
      len (flat_map (fun u => if negb (user =? u) then []
                              else pairs_of Exp p items u) l)
      = (if in_dec Z.eq_dec user l then 1 else 0) * k).
    { induction 1 as [|u l Hu Hl IH]; [reflexivity|]. cbn [flat_map].
      unfold len in *. rewrite length_app.
      destruct (Z.eqb_spec user u) as [<-|Hne]; cbn [negb].
      - pose proof (length_pairs_of Exp p items user) as Hp.
        unfold len in Hp. fold k in Hp.
        destruct (in_dec Z.eq_dec user (user :: l)) as [_|Hn];
          [|exfalso; apply Hn; now left].
        destruct (in_dec Z.eq_dec user l) as [Hin|_]; [contradiction|]. lia.
      - cbn [List.length]. rewrite Nat.add_0_l, IH.
        destruct (in_dec Z.eq_dec user l) as [Hin|Hn],
                 (in_dec Z.eq_dec user (u :: l)) as [Hin'|Hn'];
          try reflexivity.
        + exfalso. apply Hn'. now right.
        + exfalso. destruct Hin'; [congruence|contradiction]. }
    rewrite (H _ (NoDup_upto users)).
    destruct (in_dec Z.eq_dec user (upto users)) as [Hin|Hn];
      rewrite In_upto in *; destruct (Z.ltb_spec user users); lia.
Qed.

(** ** The first check that fails *)

Lemma bad_choice_first items cs c :
  bad_choice items cs = Some c <->
  exists pre post, cs = pre ++ c :: post /\
    Forall (fun c => 0 <= c < items) pre /\ (c < 0 \/ items <= c).
Proof.
  unfold bad_choice. induction cs as [|x cs IH]; simpl.
  - split; [discriminate|]. intros (pre & post & H & _). now destruct pre.
  - destruct ((x <? 0) || (x >=? items)) eqn:E.
    + split.
      * intros H. injection H as <-. exists [], cs.
        split; [reflexivity|]. split; [constructor|].
        apply orb_true_iff in E. lia.
      * intros (pre & post & H & Hp & Hc). destruct pre as [|y pre].
        -- simpl in H. congruence.
        -- simpl in H. injection H as <- _. inversion Hp; subst.
           apply orb_true_iff in E. lia.
    + rewrite IH. apply orb_false_iff in E. split.
      * intros (pre & post & -> & Hp & Hc). exists (x :: pre), post.
        split; [reflexivity|]. split; [constructor; [lia|exact Hp]|exact Hc].
      * intros (pre & post & H & Hp & Hc). destruct pre as [|y pre].
        -- simpl in H. injection H as -> _. lia.
        -- simpl in H. injection H as <- ->. inversion Hp; subst.
           exists pre, post. auto.
Qed.

(** ** A fresh engine *)

Lemma Current_NewEngine users items u i : Current (NewEngine users items) u i = 0%float.
Proof.
  unfold Current. destruct (I _ u i) as [k|]; [|reflexivity].
  cbn [NewEngine X Zero Data]. apply nth_repeat.
Qed.

Lemma weight_of_NewEngine Exp users items u a b :
  weight_of Exp (NewEngine users items) u a b = Exp (-0)%float.
Proof.
  unfold weight_of. rewrite !Current_NewEngine. reflexivity.
Qed.

Lemma ordered_NewEngine users items c : ordered (NewEngine users items) c = c.
Proof.
  unfold ordered. destruct (Choices c) as [|a [|b [|x l]]]; try reflexivity.
  rewrite !Current_NewEngine. reflexivity.
Qed.

(** ** What [Generate] reads *)

Lemma Current_X p p' u i : X p' = X p -> Current p' u i = Current p u i.
Proof. unfold Current. now intros ->. Qed.

Lemma candidate_list_X_T Exp p p' users items user :
  X p' = X p -> T p' = T p ->
  candidate_list Exp p' users items user = candidate_list Exp p users items user.
Proof.
  intros HX HT. unfold candidate_list, pairs_of.
  apply flat_map_ext. intros u. destruct (_ && _); [reflexivity|].
  apply flat_map_ext. intros a. apply flat_map_ext. intros b.
  destruct (a =? b); [reflexivity|]. unfold weight_of.
  now rewrite !(Current_X p p' _ _ HX), HT.
Qed.

Lemma ordered_X p p' c : X p' = X p -> ordered p' c = ordered p c.
Proof.
  intros HX. unfold ordered. destruct (Choices c) as [|a [|b [|x l]]]; try reflexivity.
  now rewrite !(Current_X p p' _ _ HX).
Qed.

(** ** The empty batch *)

Lemma differences_empty p pre post :
  differences [] p nan pre post = map (fun _ => nan) post.
Proof.
  revert pre. induction post as [|x post IH]; intros pre; simpl; [reflexivity|].
  now rewrite IH.
Qed.

(** ** binary64: the conversion of a length *)

Lemma digits2_pos_size m : digits2_pos m = Pos.size m.
Proof. induction m; simpl; congruence. Qed.

Lemma digits2_pos_iter m k :
  digits2_pos (Pos.iter xO m k) = (digits2_pos m + k)%positive.
Proof.
  induction k using Pos.peano_ind.
  - simpl. lia.
  - rewrite Pos.iter_succ. simpl. rewrite IHk. lia.
Qed.

Lemma size_below_2_53 m : Z.pos m < 2 ^ 53 -> (Pos.size m <= 53)%positive.
Proof.
  intros H. pose proof (Pos.size_le m) as Hs.
  assert (H0 : Z.pos (2 ^ Pos.size m) <= Z.pos m~0) by lia.
  rewrite Pos2Z.inj_pow in H0.
  assert (H1 : 2 ^ Z.pos (Pos.size m) < 2 ^ 54) by lia.
  apply Z.pow_lt_mono_r_iff in H1; lia.
Qed.

(** A mantissa of 53 bits at an exponent in range is not rounded. *)
Lemma binary_round_aux_exact mz ez :
  digits2_pos mz = 53%positive -> -1074 <= ez <= 971 ->
  binary_round_aux prec emax false (Z.pos mz) ez loc_Exact
  = S754_finite false mz ez.
Proof.
  intros Hd He.
  assert (E : fexp prec emax (Zdigits2 (Z.pos mz) + ez) - ez = 0).
  { unfold fexp, emin, Zdigits2, prec, emax. rewrite Hd. lia. }
  unfold binary_round_aux, shr_fexp. rewrite E.
  cbn [shr shr_record_of_loc shr_m loc_of_shr_record round_nearest_even].
  rewrite E. cbn [shr shr_record_of_loc shr_m].
  replace (ez <=? emax - prec) with true; [reflexivity|].
  symmetry. apply Z.leb_le. unfold emax, prec. lia.
Qed.

(** [float64(n)] is a positive number for a length [n] of a batch. *)
Lemma float64_of_int_positive n :
  0 < n < 2 ^ 53 ->
  exists m e, Prim2SF (float64_of_int n) = S754_finite false m e.
Proof.
  intros Hn. unfold float64_of_int. rewrite of_uint63_spec, Uint63.of_Z_spec.
  rewrite Z.mod_small by (change Uint63.wB with (2 ^ 63); lia).
  destruct n as [|m|m]; try lia. cbn [binary_normalize]. unfold binary_round.
  pose proof (size_below_2_53 m (proj2 Hn)) as Hs.
  rewrite <- digits2_pos_size in Hs.
  assert (Hf : fexp prec emax (Z.pos (digits2_pos m) + 0)
               = Z.pos (digits2_pos m) - 53).
  { unfold fexp, emin, prec, emax. lia. }
  rewrite Hf. unfold shl_align.
  destruct (Z.pos (digits2_pos m) - 53 - 0) as [|k|k] eqn:Ek; try lia.
  - exists m, 0. apply binary_round_aux_exact; lia.
  - eexists _, _. apply binary_round_aux_exact; [|lia].
    rewrite digits2_pos_iter. lia.
Qed.

Lemma zero_div_length n : 0 < n < 2 ^ 53 -> (0 / float64_of_int n)%float = 0%float.
Proof.
  intros Hn. destruct (float64_of_int_positive n Hn) as (m & e & H).
  apply Prim2SF_inj. rewrite div_spec, H. reflexivity.
Qed.

(** [math.Max(0, t)] is [0] for a [t] that is at most [0]. *)
Lemma math_Max_0_below t : (t <=? 0)%float = true -> math_Max 0 t = 0%float.
Proof.
  intros Ht. unfold math_Max.
  change (0 =? infinity)%float with false. simpl orb.
  assert (Hi : (t =? infinity)%float = false).
  { rewrite leb_spec in Ht. rewrite eqb_spec. revert Ht.
    change (Prim2SF 0) with (S754_zero false).
    change (Prim2SF infinity) with (S754_infinity false).
    unfold SFleb, SFeqb. destruct (Prim2SF t) as [[]|[]| |[] ? ?]; simpl; congruence. }
  rewrite Hi. change (is_nan 0) with false. simpl orb.
  assert (Hn : is_nan t = false).
  { apply Float64.is_nan_false. rewrite leb_spec in Ht. intros E. rewrite E in Ht.
    discriminate. }
  rewrite Hn. change (0 =? 0)%float with true. simpl andb.
  destruct (0 =? t)%float eqn:Hz; [reflexivity|].
  replace (t <? 0)%float with true; [reflexivity|]. symmetry.
  rewrite leb_spec in Ht. rewrite eqb_spec in Hz. rewrite ltb_spec.
  unfold SFleb, SFeqb, SFltb in *.
  rewrite (Float64.SFcompare_antisym (Prim2SF t) (Prim2SF 0)) in Hz.
  destruct (SFcompare (Prim2SF t) (Prim2SF 0)) as [[]|]; simpl in *; congruence.
Qed.

(** ** The cells of a fresh engine *)

Lemma cell_index_inj items u a v i :
  0 <= a < items -> 0 <= i < items -> 0 <= u -> 0 <= v ->
  Z.to_nat (u * items + a) = Z.to_nat (v * items + i) -> u = v /\ a = i.
Proof.
  intros Ha Hi Hu Hv H.
  assert (E : u * items + a = v * items + i) by nia.
  assert (u = v) by nia. subst. lia.
Qed.

Lemma nth_one_cell k m j (e : float) :
  nth j (repeat 0%float k ++ e :: repeat 0%float m) 0%float
  = if Nat.eqb j k then e else 0%float.
Proof.
  destruct (Nat.eqb_spec j k) as [->|Hne].
  - rewrite app_nth2, repeat_length, Nat.sub_diag; [reflexivity|].
    rewrite repeat_length. lia.
  - destruct (Nat.lt_ge_cases j k) as [Hlt|Hge].
    + rewrite app_nth1 by (rewrite repeat_length; lia). apply nth_repeat.
    + rewrite app_nth2, repeat_length by (rewrite repeat_length; lia).
      destruct (j - k)%nat as [|r] eqn:E; [lia|]. simpl. apply nth_repeat.
Qed.

(** The estimates of a fresh engine with one cell moved. *)
Lemma Current_one_cell users items k m e v i :
  0 <= v < users -> 0 <= i < items ->
  Current (with_cells (NewEngine users items)
             (repeat 0%float k ++ e :: repeat 0%float m)) v i
  = if Nat.eqb (Z.to_nat (v * items + i)) k then e else 0%float.
Proof.
  intros Hv Hi. unfold Current, I. cbn [with_cells set_X X Shape Data NewEngine Zero].
  replace ((0 <=? v) && (v <? users) && (0 <=? i) && (i <? items)) with true
    by (symmetry; repeat (apply andb_true_intro; split); lia).
  apply nth_one_cell.
Qed.

(** ** binary64: NaN *)

Lemma sub_nan_l y : (nan - y)%float = nan.
Proof. apply Prim2SF_inj. rewrite sub_spec. reflexivity. Qed.

Lemma add_nan_l y : (nan + y)%float = nan.
Proof. apply Prim2SF_inj. rewrite add_spec. reflexivity. Qed.

Lemma add_nan_r x : (x + nan)%float = nan.
Proof.
  apply Prim2SF_inj. rewrite add_spec. change (Prim2SF nan) with S754_nan.
  unfold SF64add. destruct (Prim2SF x); reflexivity.
Qed.

Lemma mul_nan_r x : (x * nan)%float = nan.
Proof.
  apply Prim2SF_inj. rewrite mul_spec. change (Prim2SF nan) with S754_nan.
  unfold SF64mul. destruct (Prim2SF x); reflexivity.
Qed.

Lemma div_nan_l y : (nan / y)%float = nan.
Proof. apply Prim2SF_inj. rewrite div_spec. reflexivity. Qed.

Lemma ltb_nan_l y : (nan <? y)%float = false.
Proof. rewrite ltb_spec. reflexivity. Qed.

(** One NaN among the weights makes their sum NaN. *)
Lemma add_weights_nan cands : forall s,
  (s = nan \/ exists c, In c cands /\ weight c = nan) ->
  add_weights s cands = nan.
Proof.
  unfold add_weights. induction cands as [|c cands IH]; intros s H.
  - destruct H as [H|(c & [] & _)]. exact H.
  - cbn [fold_left]. apply IH. destruct H as [->|(c' & [<-|Hin] & Hw)].
    + left. apply add_nan_l.
    + left. rewrite Hw. apply add_nan_r.
    + right. eauto.
Qed.

(** A draw that is NaN is below no weight. *)
Lemma walk_nan cands : walk cands nan = None.
Proof.
  induction cands as [|c cands IH]; [reflexivity|]. cbn [walk].
  now rewrite ltb_nan_l, sub_nan_l.
Qed.

Lemma around_middle {A} (l1 : list A) x l2 :
  firstn (List.length l1) (l1 ++ x :: l2) = l1 /\
  skipn (S (List.length l1)) (l1 ++ x :: l2) = l2.
Proof.
  induction l1 as [|y l1 [IH1 IH2]]; simpl; [auto|].
  split; [now rewrite IH1|exact IH2].
Qed.

(** * What else holds of the engine *)

(** ** The gradient, whatever the cells hold *)

(** X7. On a [users] x [items] engine and a batch of comparisons that passed
    the checks, [gradientLoss] returns a [users] x [items] matrix and leaves
    every cell [c] of [Current] at [(c + epsilon) - epsilon], the rest of the
    engine as it was. *)
Theorem gradientLoss_leaves_restored_cells p users items samps :
  exact_shape p users items -> Forall (valid users items) samps ->
  exists G d,
    gradientLoss samps p
      = Done G (with_cells p (map restored (Data (X p)))) d /\
    matrix users items G.
Proof.
  intros He Hv. rewrite (gradientLoss_any p users items samps He Hv).
  eexists _, _. split; [reflexivity|].
  destruct He as (Hs & Hl & _). split; [exact Hs|].
  unfold len in *. cbn [Data]. now rewrite differences_length.
Qed.

Lemma gradientLoss_leaves_restored_cells_witness :
  let p := engine_of 1 2 [0.125%float; 0%float] in
  exists G d,
    gradientLoss [mkQuery 0 [0; 1] 0%float] p
      = Done G (with_cells p (map restored [0.125%float; 0%float])) d /\
    matrix 1 2 G.
Proof.
  intros p.
  refine (gradientLoss_leaves_restored_cells p 1 2 [mkQuery 0 [0; 1] 0%float] _ _).
  - repeat split; try reflexivity; lia.
  - repeat constructor; simpl; lia.
Defined.

(** X8. The component [gradientLoss] returns for the cell [k] is the loss at
    the engine with the cells before [k] already restored and the cell [k]
    perturbed, minus the loss at the engine as it was before the call, over
    [epsilon]. *)
Theorem gradientLoss_components p users items samps k x :
  exact_shape p users items -> Forall (valid users items) samps ->
  nth_error (Data (X p)) k = Some x ->
  exists G p' d before pk after,
    gradientLoss samps p = Done G p' d /\
    loss samps p = Some before /\
    perturbed_after p k = Some pk /\
    loss samps pk = Some after /\
    nth_error (Data G) k = Some ((after - before) / epsilon)%float.
Proof.
  intros He Hv Hk. pose proof (exact_shape_shaped p users items He) as Hs.
  rewrite (gradientLoss_any p users items samps He Hv).
  unfold loss, perturbed_after. rewrite Hk, (hingeLoss_run p users items samps Hs Hv).
  apply nth_error_split in Hk. destruct Hk as (l1 & l2 & Hd & Hl).
  destruct (around_middle l1 x l2) as [Hf Hsk].
  rewrite Hd, <- Hl, Hf, Hsk.
  assert (Hs' : shaped (with_cells p (map restored l1 ++ (x + epsilon)%float :: l2))
                  users items).
  { apply shaped_with_cells; [exact Hs|].
    rewrite Hd, !length_app, length_map. reflexivity. }
  eexists _, _, _, _, _, _. repeat (split; [reflexivity|]).
  rewrite (hingeLoss_run _ users items samps Hs' Hv).
  split; [reflexivity|].
  cbn [Data]. apply (differences_nth samps p _ l2 x l1 []).
Qed.

Lemma gradientLoss_components_witness :
  let p := engine_of 1 2 [0x1.fff972474538fp-1%float; 0%float] in
  let samps := [mkQuery 0 [0; 1] 0%float] in
  exists G p' d before pk after,
    gradientLoss samps p = Done G p' d /\
    loss samps p = Some before /\
    perturbed_after p 1 = Some pk /\
    loss samps pk = Some after /\
    nth_error (Data G) 1 = Some ((after - before) / epsilon)%float.
Proof.
  intros p samps.
  refine (gradientLoss_components p 1 2 samps 1 0%float _ _ eq_refl).
  - repeat split; try reflexivity; lia.
  - repeat constructor; simpl; lia.
Defined.

(** X9. The cost of a call. On a [users] x [items] engine whose history
    passed the checks, [Respond] on a valid comparison evaluates the loss
    [users * items + 1] times, each time over the whole history with the new
    comparison. *)
Theorem Respond_evaluates_loss_per_cell (gauss : Gauss) p users items prompt :
  exact_shape p users items ->
  Forall (valid users items) (History p) -> valid users items prompt ->
  exists p',
    Respond gauss prompt p
    = Done None p' (repeat (len (History p) + 1) (S (Z.to_nat (users * items)))).
Proof.
  intros He Hh Hv. rewrite (Respond_any gauss p users items prompt He Hh Hv).
  eexists. f_equal. rewrite map_const. destruct He as (_ & Hl & _).
  unfold len in *. rewrite length_app. cbn [List.length repeat].
  replace (Z.to_nat (users * items)) with (List.length (Data (X p))) by lia.
  f_equal; [lia|]. f_equal. lia.
Qed.

Lemma Respond_evaluates_loss_per_cell_witness :
  exists p',
    Respond OneRow (mkQuery 0 [0; 1] 0%float) (NewEngine 1 2)
    = Done None p' [1; 1; 1].
Proof.
  refine (Respond_evaluates_loss_per_cell OneRow (NewEngine 1 2) 1 2
            (mkQuery 0 [0; 1] 0%float) _ _ _).
  - apply NewEngine_exact_shape; lia.
  - constructor.
  - repeat split; try (simpl; lia). repeat constructor; lia.
Defined.

(** ** Sessions *)

(** X10. With a matrix library that keeps the shape, a run of calls to
    [Respond] on a well-formed engine never panics: every call returns, with
    an error exactly for the comparisons that fail a check; the engine stays
    well formed, and its history grows by the comparisons that passed, in
    order. *)
Theorem Responds_never_panic (gauss : Gauss) users items prompts p :
  keeps_shape gauss users items -> well_formed users items p ->
  exists errs p' d,
    Responds gauss prompts p = Done errs p' d /\
    Forall2 (fun prompt e => e = None <-> valid users items prompt) prompts errs /\
    well_formed users items p' /\
    History p' = History p ++ filter (validb users items) prompts.
Proof.
  intros Hk Hw.
  exact (Responds_well_formed gauss users items Hk prompts p [] Hw).
Qed.

Lemma Responds_never_panic_witness :
  let prompts := [mkQuery 0 [0; 1] 0%float; mkQuery 0 [0; 2] 0%float;
                  mkQuery 0 [1; 0] 0%float] in
  exists errs p' d,
    Responds OneRow prompts (NewEngine 1 2) = Done errs p' d /\
    Forall2 (fun prompt e => e = None <-> valid 1 2 prompt) prompts errs /\
    well_formed 1 2 p' /\
    History p' = [] ++ filter (validb 1 2) prompts.
Proof.
  intros prompts.
  refine (Responds_never_panic OneRow 1 2 prompts (NewEngine 1 2)
            OneRow_keeps_shape _).
  apply NewEngine_well_formed; lia.
Defined.

(** X11. Whatever [Generate] returns, [Respond] accepts on the same engine,
    with the two items in the order [Generate] gave them or in the other:
    the comparison passes the checks and is appended to the history. *)
Theorem Generate_then_Respond Exp (gauss : Gauss) p users items variate user
  q p0 d0 q' :
  exact_shape p users items -> Forall (valid users items) (History p) ->
  Generate Exp variate user p = Done q p0 d0 ->
  User q' = User q -> Permutation (Choices q) (Choices q') ->
  exists p' d,
    Respond gauss q' p0 = Done None p' d /\ History p' = History p ++ [q'].
Proof.
  intros He Hh Hg Hu Hp.
  destruct (Generate_candidate Exp p users items _ _ _ _ _
              (exact_shape_shaped p users items He) Hg) as (-> & _ & Hc).
  pose proof (candidate_valid users items user q q' Hc Hu Hp) as Hv.
  rewrite (Respond_any gauss p users items q' He Hh Hv).
  eexists _, _. split; [reflexivity|]. now rewrite History_proximal_step.
Qed.

Lemma Generate_then_Respond_witness :
  let p := NewEngine 1 2 in
  Generate Exp_near_zero 0.5%float (-1) p = Done (mkQuery 0 [1; 0] 1%float) p [] /\
  exists p' d,
    Respond OneRow (mkQuery 0 [0; 1] 1%float) p = Done None p' d /\
    History p' = History p ++ [mkQuery 0 [0; 1] 1%float].
Proof.
  intros p.
  assert (Hg : Generate Exp_near_zero 0.5%float (-1) p
               = Done (mkQuery 0 [1; 0] 1%float) p [])
    by (vm_compute; reflexivity).
  split; [exact Hg|].
  refine (Generate_then_Respond Exp_near_zero OneRow p 1 2 0.5%float (-1)
            (mkQuery 0 [1; 0] 1%float) p [] (mkQuery 0 [0; 1] 1%float)
            _ _ Hg eq_refl _).
  - apply NewEngine_exact_shape; lia.
  - constructor.
  - apply perm_swap.
Defined.

(** X12. [TestConvergence], run on a well-formed engine with a matrix
    library that keeps the shape, never reports a comparison of an item with
    itself: it passes, or reports more than 40 mistakes, or stops in the
    panic of [Generate] for want of a question. Every turn gives the engine
    one answer in ascending order, and the engine stays well formed. *)
Theorem TestConvergence_never_compares_with_itself Exp (gauss : Gauss)
  users items variates p :
  keeps_shape gauss users items -> well_formed users items p ->
  match TestConvergence Exp gauss variates p with
  | Done r p' d =>
      (r = None \/
       exists n, r = Some (TooManyMistakes n) /\ 40 < n <= len variates) /\
      well_formed users items p' /\
      exists answers,
        History p' = History p ++ answers /\
        List.length answers = List.length variates /\
        Forall ascending answers
  | Abort msg d => msg = "Could not find another question"%string
  end.
Proof.
  intros Hk Hw. unfold TestConvergence.
  pose proof (TestConvergence_loop_run Exp gauss users items Hk variates p 0 Hw)
    as Hl.
  unfold bind at 1.
  destruct (for_return variates _ 0 p) as [r p' d|msg d]; [|exact Hl].
  destruct Hl as (answers & n & -> & Hn & Hh & Hlen & Ha & _ & Hw').
  destruct (Z.gtb_spec n 40) as [Hgt|Hle]; cbn [ret].
  - split; [right; exists n; split; [reflexivity|lia]|].
    split; [exact Hw'|]. exists answers. auto.
  - split; [now left|]. split; [exact Hw'|]. exists answers. auto.
Qed.

Lemma TestConvergence_never_compares_with_itself_witness :
  match TestConvergence Exp_near_zero OneRow [0.5%float] (NewEngine 1 2) with
  | Done r p' d =>
      (r = None \/
       exists n, r = Some (TooManyMistakes n) /\ 40 < n <= len [0.5%float]) /\
      well_formed 1 2 p' /\
      exists answers,
        History p' = History (NewEngine 1 2) ++ answers /\
        List.length answers = List.length [0.5%float] /\
        Forall ascending answers
  | Abort msg d => msg = "Could not find another question"%string
  end.
Proof.
  refine (TestConvergence_never_compares_with_itself Exp_near_zero OneRow 1 2
            [0.5%float] (NewEngine 1 2) OneRow_keeps_shape _).
  apply NewEngine_well_formed; lia.
Defined.

(** ** The errors of [Respond] and the panics *)

(** X13. [Respond] reports the first check that fails, with the numbers of
    the message: the arity of the comparison, then its user with the number
    of users, then the first item, in the order of the comparison, that is
    out of range with the number of items; and every error leaves the engine
    as it was. *)
Theorem Respond_reports_first_failed_check (gauss : Gauss) p users items prompt :
  Shape (X p) = [users; items] ->
  forall e p' d,
    Respond gauss prompt p = Done (Some e) p' d <->
    p' = p /\ d = [] /\
    ((e = ErrBinary /\ len (Choices prompt) <> 2) \/
     (e = ErrUser (User prompt) users /\ len (Choices prompt) = 2 /\
      (User prompt < 0 \/ users <= User prompt)) \/
     (exists pre c post,
        e = ErrChoice c items /\ len (Choices prompt) = 2 /\
        0 <= User prompt < users /\
        Choices prompt = pre ++ c :: post /\
        Forall (fun c => 0 <= c < items) pre /\ (c < 0 \/ items <= c))).
Proof.
  intros Hs e p' d. rewrite (Respond_run gauss p users items prompt Hs).
  destruct (Z.eqb_spec (len (Choices prompt)) 2) as [Hl|Hl]; cbn [negb].
  2:{ split.
      - intros H. injection H as <- <- <-. auto.
      - intros (-> & -> & [[-> _]|[(_ & H & _)|(? & ? & ? & _ & H & _)]]);
          [reflexivity|contradiction|contradiction]. }
  destruct ((User prompt <? 0) || (User prompt >=? users)) eqn:Eu.
  { apply orb_true_iff in Eu. split.
    - intros H. injection H as <- <- <-. split; [reflexivity|]. split; [reflexivity|].
      right. left. split; [reflexivity|]. split; [exact Hl|lia].
    - intros (-> & -> & [[_ H]|[(-> & _)|(? & ? & ? & _ & _ & H & _)]]);
        [contradiction|reflexivity|lia]. }
  apply orb_false_iff in Eu.
  destruct (bad_choice items (Choices prompt)) as [c|] eqn:Ec.
  { pose proof Ec as Ec'. apply bad_choice_first in Ec'.
    destruct Ec' as (pre & post & Hc & Hp & Hb). split.
    - intros H. injection H as <- <- <-. split; [reflexivity|]. split; [reflexivity|].
      right. right. exists pre, c, post. repeat split; auto; lia.
    - intros (-> & -> & [[_ H]|[(_ & _ & H)|(pre' & c' & post' & -> & _ & _ & H)]]);
        [contradiction|lia|].
      assert (E : bad_choice items (Choices prompt) = Some c')
        by (apply bad_choice_first; eauto).
      congruence. }
  split.
  - intros H. apply bind_inv in H.
    destruct H as (a & p1 & d1 & d2 & _ & H & _). discriminate.
  - intros (_ & _ & [[_ H]|[(_ & _ & H)|(pre & c & post & _ & _ & _ & H)]]);
      [contradiction|lia|].
    assert (E : bad_choice items (Choices prompt) = Some c)
      by (apply bad_choice_first; eauto).
    congruence.
Qed.

Lemma Respond_reports_first_failed_check_witness :
  let p := NewEngine 2 2 in
  let prompt := mkQuery 0 [1; 5] 0%float in
  Respond OneCell prompt p = Done (Some (ErrChoice 5 2)) p [] <->
  p = p /\ @nil Z = [] /\
  ((ErrChoice 5 2 = ErrBinary /\ len (Choices prompt) <> 2) \/
   (ErrChoice 5 2 = ErrUser (User prompt) 2 /\ len (Choices prompt) = 2 /\
    (User prompt < 0 \/ 2 <= User prompt)) \/
   (exists pre c post,
      ErrChoice 5 2 = ErrChoice c 2 /\ len (Choices prompt) = 2 /\
      0 <= User prompt < 2 /\
      Choices prompt = pre ++ c :: post /\
      Forall (fun c => 0 <= c < 2) pre /\ (c < 0 \/ 2 <= c))).
Proof.
  exact (Respond_reports_first_failed_check OneCell (NewEngine 2 2) 2 2
           (mkQuery 0 [1; 5] 0%float) eq_refl (ErrChoice 5 2) (NewEngine 2 2) []).
Defined.

(** X14. A history that holds a comparison with fewer than two items (the
    field is exported; [Respond] would not have stored it) makes every later
    [Respond] of a valid comparison panic, at the index of the missing item
    and before any loss is evaluated. *)
Theorem Respond_panics_on_short_comparison (gauss : Gauss) p users items
  pre x post prompt :
  shaped p users items ->
  History p = pre ++ x :: post -> Forall (valid users items) pre ->
  len (Choices x) < 2 -> valid users items prompt ->
  Respond gauss prompt p = Abort "index out of range" [].
Proof.
  intros Hs Hh Hp Hx Hv.
  rewrite (validb_Respond_run gauss p users items prompt (proj1 Hs)).
  apply validb_valid in Hv. rewrite Hv.
  apply bind_Abort, update_abort. unfold gradientLoss. rewrite bind_gets.
  apply bind_Abort. rewrite Hh, <- app_assoc. cbn [app].
  apply (hingeLoss_short _ users items); auto.
Qed.

Lemma Respond_panics_on_short_comparison_witness :
  Respond OneRow (mkQuery 0 [0; 1] 0%float)
    (set_History [mkQuery 0 [1; 0] 0%float; mkQuery 0 [1] 0%float] (NewEngine 1 2))
  = Abort "index out of range" [].
Proof.
  refine (Respond_panics_on_short_comparison OneRow
            (set_History [mkQuery 0 [1; 0] 0%float; mkQuery 0 [1] 0%float]
               (NewEngine 1 2)) 1 2
            [mkQuery 0 [1; 0] 0%float] (mkQuery 0 [1] 0%float) []
            (mkQuery 0 [0; 1] 0%float) _ eq_refl _ _ _).
  - split; [reflexivity|vm_compute; discriminate].
  - repeat constructor; simpl; lia.
  - vm_compute. reflexivity.
  - repeat split; try (simpl; lia). repeat constructor; lia.
Defined.

(** X15. An engine whose [X] has no dimension, as the zero value [Engine{}]
    has: [Generate] panics at [p.X.Shape[0]], and so does [Respond] on a
    comparison of two items; a comparison that has not two items still gets
    the error of the arity, the check that looks at no matrix. *)
Theorem Engine_without_dimensions Exp (gauss : Gauss) p variate user prompt :
  Shape (X p) = [] ->
  Generate Exp variate user p = Abort "index out of range" [] /\
  (len (Choices prompt) = 2 ->
   Respond gauss prompt p = Abort "index out of range" []) /\
  (len (Choices prompt) <> 2 ->
   Respond gauss prompt p = Done (Some ErrBinary) p []).
Proof.
  intros Hs.
  assert (H0 : X_Shape 0 p = Abort "index out of range" []).
  { unfold X_Shape. rewrite bind_gets, Hs. reflexivity. }
  split; [|split].
  - unfold Generate, candidates. apply bind_Abort, bind_Abort. exact H0.
  - intros Hl. unfold Respond. rewrite Hl. cbn [Z.eqb Pos.eqb negb].
    apply bind_Abort. exact H0.
  - intros Hl. unfold Respond.
    destruct (Z.eqb_spec (len (Choices prompt)) 2); [contradiction|reflexivity].
Qed.

Lemma Engine_without_dimensions_witness :
  Generate Exp_near_zero 0.5%float (-1) Engine_zero = Abort "index out of range" [] /\
  (len [0; 1] = 2 ->
   Respond OneCell (mkQuery 0 [0; 1] 0%float) Engine_zero
   = Abort "index out of range" []) /\
  (len [0; 1] <> 2 ->
   Respond OneCell (mkQuery 0 [0; 1] 0%float) Engine_zero
   = Done (Some ErrBinary) Engine_zero []).
Proof.
  exact (Engine_without_dimensions Exp_near_zero OneCell Engine_zero 0.5%float (-1)
           (mkQuery 0 [0; 1] 0%float) eq_refl).
Defined.

(** ** The loss *)

(** X16. The loss is never negative: on any engine and any batch, when
    [hingeLoss] returns, its result is a zero, a positive number, [+Inf] or
    NaN, the engine is as it was, and one division was made, by the length
    of the batch. *)
Theorem hingeLoss_never_negative samps p l p' d :
  hingeLoss samps p = Done l p' d ->
  not_negative l /\ p' = p /\ d = [len samps].
Proof.
  intros H. unfold hingeLoss in H. apply bind_inv in H.
  destruct H as (sum & p1 & d1 & d2 & Hsum & H & ->).
  assert (Hr : p1 = p /\ d1 = []).
  { assert (Hreads : reads (for_range samps (fun x sum =>
        c0 <- index (nth_error (Choices x) 0) ;;
        c1 <- index (nth_error (Choices x) 1) ;;
        x0 <- X_at (User x) c0 ;;
        x1 <- X_at (User x) c1 ;;
        ret (sum + math_Max (1 - (x0 - x1)) 0)%float) 0%float)).
    { apply reads_for_range. intros x s. auto 10 with reads. }
    specialize (Hreads p). rewrite Hsum in Hreads. exact Hreads. }
  destruct Hr as [-> ->]. apply hinge_sum_not_negative in Hsum.
  injection H as <- <- <-. split; [|auto].
  now apply Sign.div_not_negative.
Qed.

Lemma hingeLoss_never_negative_witness :
  let p := engine_of 1 2 [0.5%float; 0.25%float] in
  let samps := [mkQuery 0 [0; 1] 0%float; mkQuery 0 [1; 0] 0%float] in
  hingeLoss samps p = Done 1%float p [2] /\
  (not_negative 1%float /\ p = p /\ [2] = [len samps]).
Proof.
  intros p samps.
  assert (H : hingeLoss samps p = Done 1%float p [2]) by (vm_compute; reflexivity).
  split; [exact H|]. exact (hingeLoss_never_negative samps p 1%float p [2] H).
Defined.

(** X17. A batch whose comparisons the estimates all satisfy with the margin
    of the hinge has the loss 0, exactly. *)
Theorem hingeLoss_zero_when_satisfied p users items samps :
  shaped p users items -> Forall (valid users items) samps ->
  0 < len samps < 2 ^ 53 ->
  Forall (satisfied p) samps ->
  hingeLoss samps p = Done 0%float p [len samps].
Proof.
  intros Hs Hv Hn Hsat. rewrite (hingeLoss_run p users items samps Hs Hv).
  f_equal. unfold mean_hinge.
  assert (Hsum : fold_left (fun sum x => (sum + hinge p x)%float) samps 0%float
                 = 0%float).
  { clear Hn Hv. induction Hsat as [|x samps Hx _ IH]; [reflexivity|]. simpl.
    unfold hinge at 2. rewrite (math_Max_0_below _ Hx). exact IH. }
  rewrite Hsum. now apply zero_div_length.
Qed.

Lemma hingeLoss_zero_when_satisfied_witness :
  let p := engine_of 1 2 [1.5%float; 0.25%float] in
  hingeLoss [mkQuery 0 [0; 1] 0%float; mkQuery 0 [0; 1] 0%float] p
  = Done 0%float p [2].
Proof.
  intros p.
  refine (hingeLoss_zero_when_satisfied p 1 2
            [mkQuery 0 [0; 1] 0%float; mkQuery 0 [0; 1] 0%float] _ _ _ _).
  - split; [reflexivity|vm_compute; discriminate].
  - repeat constructor; simpl; lia.
  - vm_compute. split; reflexivity.
  - repeat constructor.
Defined.

(** X18. The empty batch. On every engine [hingeLoss] of no comparison is
    NaN, the quotient of 0 by 0, and on a [users] x [items] engine every
    component of the gradient of no comparison is NaN. *)
Theorem empty_batch_is_NaN p users items :
  exact_shape p users items ->
  hingeLoss [] p = Done nan p [0] /\
  exists p' d,
    gradientLoss [] p
    = Done (mkArray (repeat nan (List.length (Data (X p)))) (Shape (X p))) p' d.
Proof.
  intros He. split; [reflexivity|].
  rewrite (gradientLoss_any p users items [] He (Forall_nil _)).
  change (mean_hinge p []) with nan.
  rewrite differences_empty, map_const. eauto.
Qed.

Lemma empty_batch_is_NaN_witness :
  let p := NewEngine 1 2 in
  hingeLoss [] p = Done nan p [0] /\
  exists p' d,
    gradientLoss [] p
    = Done (mkArray (repeat nan (List.length (Data (X p)))) (Shape (X p))) p' d.
Proof.
  intros p. refine (empty_batch_is_NaN p 1 2 _).
  apply NewEngine_exact_shape; lia.
Defined.

(** ** The update *)

(** X19. The loop of [update] over the singular values leaves none of them
    negative: each becomes [math.Max(0, s - Lambda)], which is a zero, a
    positive number, [+Inf] or NaN; their number and the engine do not
    change. *)
Theorem threshold_never_negative S' p :
  exists data,
    threshold S' p = Done (mkArray data (Shape S')) p [] /\
    data = soft_threshold (Lambda p) (Data S') /\
    List.length data = List.length (Data S') /\
    Forall not_negative data.
Proof.
  rewrite threshold_run. eexists. split; [reflexivity|]. split; [reflexivity|].
  split; [apply length_map|]. unfold soft_threshold.
  apply Forall_forall. intros s Hs. apply in_map_iff in Hs.
  destruct Hs as (x & <- & _). apply Sign.math_Max_0_not_negative.
Qed.

(** ** The candidates of [Generate] *)

(** X20. On a [users] x [items] engine the three loops of [Generate] collect
    [users * items * (items - 1)] candidates without a filter, and
    [items * (items - 1)] of them for a user of the engine. *)
Theorem candidates_count Exp p users items user :
  shaped p users items -> 0 <= users -> 0 <= items ->
  exists cands sum,
    candidates Exp user p = Done (cands, sum) p [] /\
    len cands = (if user <? 0 then users else if user <? users then 1 else 0)
                * (items * (items - 1)).
Proof.
  intros Hs Hu Hi. rewrite (candidates_run Exp p users items Hs user).
  eexists _, _. split; [reflexivity|].
  rewrite length_candidate_list, !Z.max_r by lia. reflexivity.
Qed.

Lemma candidates_count_witness :
  exists cands sum,
    candidates Exp_near_zero (-1) (NewEngine 3 5) = Done (cands, sum) (NewEngine 3 5) [] /\
    len cands = 60.
Proof.
  refine (candidates_count Exp_near_zero (NewEngine 3 5) 3 5 (-1) _ _ _); try lia.
  split; [reflexivity|vm_compute; discriminate].
Defined.

(** X21. The candidates come in both orders with one weight: with the pair
    [(a, b)] of a user the loops of [Generate] collect the pair [(b, a)] of
    that user, and their weights are equal. *)
Theorem candidates_symmetric Exp p users items user cands sum p' d u a b w :
  shaped p users items ->
  candidates Exp user p = Done (cands, sum) p' d ->
  In (mkQuery u [a; b] w) cands -> In (mkQuery u [b; a] w) cands.
Proof.
  intros Hs. rewrite (candidates_run Exp p users items Hs user).
  intros H. injection H as <- _ _ _. intros H. apply in_candidate_list in H.
  destruct H as (u' & a' & b' & Hu & Hf & Ha & Hb & Hab & H).
  injection H as -> -> -> ->. apply in_candidate_list.
  exists u', b', a'. repeat split; auto; try lia.
  unfold weight_of, math_Abs. now rewrite Sign.abs_sub_sym.
Qed.

Lemma candidates_symmetric_witness :
  let p := engine_of 1 2 [0%float; ulp1] in
  let cands := [mkQuery 0 [0; 1] (1 - ulp1)%float;
                mkQuery 0 [1; 0] (1 - ulp1)%float] in
  candidates Exp_near_zero (-1) p = Done (cands, (1 - ulp1 + (1 - ulp1))%float) p [] /\
  In (mkQuery 0 [1; 0] (1 - ulp1)%float) cands.
Proof.
  intros p cands.
  assert (H : candidates Exp_near_zero (-1) p
              = Done (cands, (1 - ulp1 + (1 - ulp1))%float) p [])
    by (vm_compute; reflexivity).
  split; [exact H|].
  refine (candidates_symmetric Exp_near_zero p 1 2 (-1) cands _ p [] 0 0 1
            (1 - ulp1)%float _ H _).
  - split; [reflexivity|vm_compute; discriminate].
  - left. reflexivity.
Defined.

(** X22. [Generate] reads the matrix [X] and the temperature [T], nothing
    else: two engines that agree on them get the same query from the same
    variate, whatever their histories and their other fields. *)
Theorem Generate_reads_X_and_T Exp p p' users items variate user :
  shaped p users items -> X p' = X p -> T p' = T p ->
  Generate Exp variate user p' =
  match Generate Exp variate user p with
  | Done q _ d => Done q p' d
  | Abort msg d => Abort msg d
  end.
Proof.
  intros Hs HX HT.
  assert (Hs' : shaped p' users items) by (unfold shaped; now rewrite HX).
  rewrite (Generate_run Exp p users items Hs), (Generate_run Exp p' users items Hs').
  cbv zeta. rewrite (candidate_list_X_T Exp p p' users items user HX HT).
  destruct (walk _ _); [|reflexivity]. now rewrite (ordered_X p p' _ HX).
Qed.

Lemma Generate_reads_X_and_T_witness :
  let p := NewEngine 2 2 in
  let p' := set_History [mkQuery 1 [1; 0] 1%float] p in
  Generate Exp_near_zero 0.75%float (-1) p'
  = match Generate Exp_near_zero 0.75%float (-1) p with
    | Done q _ d => Done q p' d
    | Abort msg d => Abort msg d
    end.
Proof.
  intros p p'.
  refine (Generate_reads_X_and_T Exp_near_zero p p' 2 2 0.75%float (-1) _ eq_refl eq_refl).
  split; [reflexivity|vm_compute; discriminate].
Defined.

(** X23. A fresh engine. [NewEngine(users, items)] is well formed; every
    candidate of [Generate] on it has the same weight, the exponential of
    [-0], and [Generate] returns the candidate the walk selects with its
    items as enumerated. *)
Theorem NewEngine_weighs_equally Exp users items variate user :
  0 <= users -> 0 <= items ->
  let p := NewEngine users items in
  let cands := candidate_list Exp p users items user in
  well_formed users items p /\
  Forall (fun c => weight c = Exp (-0)%float) cands /\
  Generate Exp variate user p =
    match walk cands (variate * total_weight cands)%float with
    | Some c => Done c p []
    | None => Abort "Could not find another question" []
    end.
Proof.
  intros Hu Hi p cands. pose proof (NewEngine_well_formed users items Hu Hi) as Hw.
  split; [exact Hw|]. split.
  - apply Forall_forall. intros c Hc. apply in_candidate_list in Hc.
    destruct Hc as (u & a & b & _ & _ & _ & _ & _ & ->).
    apply weight_of_NewEngine.
  - rewrite (Generate_run Exp p users items
               (exact_shape_shaped _ _ _ (proj1 Hw))).
    cbv zeta. fold cands. destruct (walk _ _); [|reflexivity].
    unfold p. now rewrite ordered_NewEngine.
Qed.

Lemma NewEngine_weighs_equally_witness :
  let p := NewEngine 2 2 in
  let cands := candidate_list Exp_near_zero p 2 2 (-1) in
  well_formed 2 2 p /\
  Forall (fun c => weight c = Exp_near_zero (-0)%float) cands /\
  Generate Exp_near_zero 0.75%float (-1) p =
    match walk cands (0.75 * total_weight cands)%float with
    | Some c => Done c p []
    | None => Abort "Could not find another question" []
    end.
Proof.
  refine (NewEngine_weighs_equally Exp_near_zero 2 2 0.75%float (-1) _ _); lia.
Defined.

(** ** The first answer *)

(** X24. The first answer. On a fresh engine the gradient of the single
    comparison "user [u]: [a] over [b]" is [-slope] in the cell of [a],
    [slope] in the cell of [b], both of user [u], and [0] in every other
    cell; [slope] is 0.99999999999988987. The engine is as it was. *)
Theorem first_gradient users items u a b w :
  0 <= u < users -> 0 <= a < items -> 0 <= b < items -> a <> b ->
  exists G d,
    gradientLoss [mkQuery u [a; b] w] (NewEngine users items)
      = Done G (NewEngine users items) d /\
    forall v i, 0 <= v < users -> 0 <= i < items ->
      nth_error (Data G) (Z.to_nat (v * items + i))
      = Some (if (v =? u) && (i =? a) then (- slope)%float
              else if (v =? u) && (i =? b) then slope
              else 0%float).
Proof.
  intros Hu Ha Hb Hab. set (p := NewEngine users items).
  set (samps := [mkQuery u [a; b] w]).
  assert (He : exact_shape p users items) by (apply NewEngine_exact_shape; lia).
  assert (Hv : Forall (valid users items) samps).
  { constructor; [|constructor]. split; [reflexivity|]. split; [exact Hu|].
    constructor; [exact Ha|]. constructor; [exact Hb|constructor]. }
  rewrite (gradientLoss_run p users items samps He Hv
             (NewEngine_restores users items)).
  eexists _, _. split; [reflexivity|]. intros v i Hvv Hi. cbn [Data].
  set (j := Z.to_nat (v * items + i)).
  assert (Hn : List.length (Data (X p)) = Z.to_nat (users * items)).
  { destruct He as (_ & Hl & _). unfold len in Hl. lia. }
  assert (Hj : (j < List.length (Data (X p)))%nat) by (rewrite Hn; unfold j; nia).
  rewrite nth_error_map, nth_error_seq.
  destruct (Nat.ltb_spec j (List.length (Data (X p)))) as [_|]; [|lia].
  cbn [option_map Nat.add]. f_equal.
  assert (Hd : Data (X p) = repeat 0%float j ++ 0%float
                 :: repeat 0%float (List.length (Data (X p)) - S j)).
  { cbn [p NewEngine X Zero Data] in Hn |- *.
    change (0%float :: repeat 0%float ?n) with (repeat 0%float (S n)).
    rewrite <- repeat_app. f_equal. cbn [p NewEngine X Zero Data] in Hj.
    rewrite repeat_length in *. lia. }
  pose proof (perturbed_at p _ _ _ Hd) as Hp. rewrite repeat_length in Hp.
  unfold difference_at. rewrite Hp.
  unfold mean_hinge, samps, hinge. cbn [fold_left Choices User nth].
  subst p. rewrite !Current_one_cell by assumption.
  rewrite !Current_NewEngine. fold j.
  destruct (Nat.eqb_spec (Z.to_nat (u * items + a)) j) as [Eja|Nja].
  - destruct (cell_index_inj items u a v i Ha Hi) as [-> ->]; try lia.
    rewrite !Z.eqb_refl. cbn [andb].
    destruct (Nat.eqb_spec (Z.to_nat (v * items + b)) j) as [Ejb|_].
    + destruct (cell_index_inj items v b v i Hb Hi) as [_ ->]; lia.
    + vm_compute. reflexivity.
  - destruct (Nat.eqb_spec (Z.to_nat (u * items + b)) j) as [Ejb|Njb].
    + destruct (cell_index_inj items u b v i Hb Hi) as [-> ->]; try lia.
      rewrite !Z.eqb_refl. cbn [andb].
      destruct (Z.eqb_spec i a) as [->|_]; [contradiction|].
      vm_compute. reflexivity.
    + destruct (Z.eqb_spec v u) as [->|_]; cbn [andb].
      * destruct (Z.eqb_spec i a) as [->|_]; [contradiction|].
        destruct (Z.eqb_spec i b) as [->|_]; [contradiction|].
        vm_compute. reflexivity.
      * vm_compute. reflexivity.
Qed.

Lemma first_gradient_witness :
  exists G d,
    gradientLoss [mkQuery 1 [2; 0] 0%float] (NewEngine 2 3)
      = Done G (NewEngine 2 3) d /\
    forall v i, 0 <= v < 2 -> 0 <= i < 3 ->
      nth_error (Data G) (Z.to_nat (v * 3 + i))
      = Some (if (v =? 1) && (i =? 2) then (- slope)%float
              else if (v =? 1) && (i =? 0) then slope
              else 0%float).
Proof.
  refine (first_gradient 2 3 1 2 0 0%float _ _ _ _); lia.
Defined.

(** ** NaN in the matrix *)

(** X25. One NaN among the estimates that [Generate] weighs makes it panic,
    whatever the variate: the sum of the weights is NaN, so is the draw, and
    no comparison with NaN holds. *)
Theorem Generate_panics_on_NaN Exp p users items variate user u a b :
  Exp nan = nan -> shaped p users items ->
  0 <= u < users -> (0 <= user -> u = user) ->
  0 <= a < items -> 0 <= b < items -> a <> b ->
  is_nan (Current p u a) = true ->
  Generate Exp variate user p = Abort "Could not find another question" [].
Proof.
  intros Hnan Hs Hu Hf Ha Hb Hab Hx.
  rewrite (Generate_run Exp p users items Hs). cbv zeta.
  assert (Hw : weight_of Exp p u a b = nan).
  { unfold weight_of, math_Abs. rewrite (Float64.nan_unique _ Hx), sub_nan_l.
    change (- abs nan)%float with nan. now rewrite div_nan_l. }
  assert (Ht : total_weight (candidate_list Exp p users items user) = nan).
  { apply add_weights_nan. right.
    exists (mkQuery u [a; b] (weight_of Exp p u a b)). split; [|exact Hw].
    apply in_candidate_list. exists u, a, b. auto 10. }
  now rewrite Ht, mul_nan_r, walk_nan.
Qed.

Lemma Generate_panics_on_NaN_witness :
  Generate Exp_near_zero 0.5%float (-1) (engine_of 1 2 [0%float; nan])
  = Abort "Could not find another question" [].
Proof.
  refine (Generate_panics_on_NaN Exp_near_zero (engine_of 1 2 [0%float; nan]) 1 2
            0.5%float (-1) 0 1 0 eq_refl _ _ _ _ _ _ eq_refl); try lia.
  split; [reflexivity|vm_compute; discriminate].
Defined.
